(** * A verified model of the Stripe API client (client.ts)

    The development embeds the class [StripeClient] of the MCP server:
    the sliding-window throttle, the request builder, the 429 retry loop,
    the response mapping and the resource adapters, together with the few
    runtime primitives they call ([Date.now], [setTimeout], [fetch],
    [URLSearchParams], [String], [Number], [process.env]).

    Conventions.
    - Times are integers in milliseconds ([Z]), as returned by [Date.now].
    - Strings are sequences of 8-bit code units.  A parameter string stands
      for its UTF-8 encoding, which is what [URLSearchParams] serialises;
      a header value is a byte string, as [Headers.get] returns it.
    - Numbers handed to the adapters are integers ([Z]).  For a safe
      integer (magnitude at most 2^53 - 1) [String(n)] is the plain decimal
      numeral; statements about the numeral of an argument are made for
      safe integers.  The result of [Number(s)] is kept as the exact
      decimal value of the literal; rounding to binary64 is outside the
      model, and statements about the time a retry waits are made for
      Retry-After values that are runs of decimal digits.
    - A timer is armed as the runtime arms it: for 1 ms when its delay is
      NaN, below 1 or above 2^31 - 1, and for the integer part of the delay
      otherwise.  It fires no earlier than that. *)

From Stdlib Require Import ZArith Lia Ascii String List Bool DecimalString.
From stdpp Require Import base tactics option list sorting gmap strings.

Local Open Scope Z_scope.
Set Warnings "-register-all".

(** ** Runtime values *)

Module Js.

(** The value of a JavaScript number as far as this client can observe it. *)
Inductive jsnum : Type :=
| NaN
| PosInf
| NegInf
| Dec (m e : Z).  (* the finite value m * 10^e *)

Definition of_Z (z : Z) : jsnum := Dec z 0.

(** [x * k] for a finite integer [k > 0], as the exact product. *)
Definition mul (x : jsnum) (k : Z) : jsnum :=
  match x with
  | Dec m e => Dec (m * k) e
  | other => other
  end.

(** Integer part (truncated towards zero) of a finite number. *)
Definition trunc (x : jsnum) : option Z :=
  match x with
  | Dec m e => Some (if 0 <=? e then m * 10 ^ e else Z.quot m (10 ^ (- e)))
  | _ => None
  end.

(** [String(b)] for a boolean. *)
Definition String_of_bool (b : bool) : string :=
  if b then "true" else "false".



(** [String(n)] for a safe integer [n]: its decimal numeral.  (Larger
    integers need not be numbers, and from 10^21 on the runtime writes
    exponent notation.) *)
Definition String_of_number (n : Z) : string :=
  NilZero.string_of_int (Z.to_int n).

(** Truthiness of a string: every string but the empty one. *)
Definition truthy (s : string) : bool :=
  match s with
  | EmptyString => false
  | String _ _ => true
  end.

(** *** [Number(s)]: StringToNumber of ECMA-262 on 8-bit strings *)

Definition code (c : ascii) : Z := Z.of_nat (nat_of_ascii c).

Definition is_digit (c : ascii) : bool := (48 <=? code c) && (code c <=? 57).

Definition is_space (c : ascii) : bool :=
  ((9 <=? code c) && (code c <=? 13)) || (code c =? 32) || (code c =? 160).

Definition digit_of (c : ascii) : Z :=
  if is_digit c then code c - 48
  else if (97 <=? code c) && (code c <=? 102) then code c - 87
  else if (65 <=? code c) && (code c <=? 70) then code c - 55
  else 99.

Definition is_digit_in (base : Z) (c : ascii) : bool := digit_of c <? base.

(** Value of a digit sequence in the given base, most significant first. *)
Definition digits_value (base : Z) (ds : list ascii) : Z :=
  fold_left (fun acc c => base * acc + digit_of c) ds 0.

Fixpoint span_digits (l : list ascii) : list ascii * list ascii :=
  match l with
  | c :: l' =>
      if is_digit c
      then let '(ds, rest) := span_digits l' in (c :: ds, rest)
      else ([], l)
  | [] => ([], [])
  end.

Fixpoint drop_space (l : list ascii) : list ascii :=
  match l with
  | c :: l' => if is_space c then drop_space l' else l
  | [] => []
  end.

Definition trim (l : list ascii) : list ascii :=
  rev (drop_space (rev (drop_space l))).

Definition is_nil {A} (l : list A) : bool :=
  match l with [] => true | _ => false end.

(** ExponentPart_opt followed by the end of the literal. *)
Definition exponent_part (l : list ascii) : option Z :=
  match l with
  | [] => Some 0
  | c :: l' =>
      if (code c =? 101) || (code c =? 69) then
        let '(neg, l'') :=
          match l' with
          | s :: r => if code s =? 45 then (true, r)
                      else if code s =? 43 then (false, r)
                      else (false, l')
          | [] => (false, l')
          end in
        let '(ds, rest) := span_digits l'' in
        if is_nil ds || negb (is_nil rest) then None
        else Some (if neg then - digits_value 10 ds else digits_value 10 ds)
      else None
  end.

(** StrUnsignedDecimalLiteral. *)
Definition unsigned_decimal (l : list ascii) : jsnum :=
  if String.eqb (string_of_list_ascii l) "Infinity" then PosInf
  else
    let '(ip, r1) := span_digits l in
    match r1 with
    | c :: r2 =>
        if code c =? 46 then
          let '(fp, r3) := span_digits r2 in
          if is_nil ip && is_nil fp then NaN
          else match exponent_part r3 with
               | Some x => Dec (digits_value 10 (ip ++ fp)) (x - Z.of_nat (length fp))
               | None => NaN
               end
        else if is_nil ip then NaN
        else match exponent_part r1 with
             | Some x => Dec (digits_value 10 ip) x
             | None => NaN
             end
    | [] => if is_nil ip then NaN else Dec (digits_value 10 ip) 0
    end.

Definition negate (x : jsnum) : jsnum :=
  match x with
  | NaN => NaN
  | PosInf => NegInf
  | NegInf => PosInf
  | Dec m e => Dec (- m) e
  end.

(** NonDecimalIntegerLiteral: 0x, 0o and 0b prefixes, unsigned. *)
Definition non_decimal (l : list ascii) : option jsnum :=
  match l with
  | z :: p :: ds =>
      if code z =? 48 then
        let base :=
          if (code p =? 120) || (code p =? 88) then 16
          else if (code p =? 111) || (code p =? 79) then 8
          else if (code p =? 98) || (code p =? 66) then 2
          else 0 in
        if base =? 0 then None
        else if is_nil ds || negb (forallb (is_digit_in base) ds) then Some NaN
        else Some (Dec (digits_value base ds) 0)
      else None
  | _ => None
  end.

Definition Number (s : string) : jsnum :=
  let l := trim (list_ascii_of_string s) in
  match l with
  | [] => Dec 0 0
  | c :: l' =>
      match non_decimal l with
      | Some x => x
      | None =>
          if code c =? 45 then negate (unsigned_decimal l')
          else if code c =? 43 then unsigned_decimal l'
          else unsigned_decimal l
      end
  end.

End Js.

(** ** [URLSearchParams]: the application/x-www-form-urlencoded serialiser *)

Module Url.

Definition hex_digit (n : Z) : ascii :=
  ascii_of_nat (Z.to_nat (if n <? 10 then 48 + n else 55 + n)).

(** Bytes left unchanged: ASCII alphanumerics and [*], [-], [.], [_]. *)
Definition unreserved (c : ascii) : bool :=
  let n := Js.code c in
  ((48 <=? n) && (n <=? 57)) || ((65 <=? n) && (n <=? 90))
  || ((97 <=? n) && (n <=? 122))
  || (n =? 42) || (n =? 45) || (n =? 46) || (n =? 95).

Definition encode_byte (c : ascii) : string :=
  if unreserved c then String c EmptyString
  else if Js.code c =? 32 then "+"
  else String "%" (String (hex_digit (Js.code c / 16))
                     (String (hex_digit (Js.code c mod 16)) EmptyString)).

Fixpoint encode (s : string) : string :=
  match s with
  | EmptyString => EmptyString
  | String c s' => encode_byte c +:+ encode s'
  end.

Definition encode_pair (kv : string * string) : string :=
  encode kv.1 +:+ "=" +:+ encode kv.2.

(** [new URLSearchParams(entries).toString()] *)
Fixpoint toString (entries : list (string * string)) : string :=
  match entries with
  | [] => ""
  | [kv] => encode_pair kv
  | kv :: rest => encode_pair kv +:+ "&" +:+ toString rest
  end.

End Url.

(** ** Requests, responses and what the client can observe *)

(** A [Record<string, string | undefined>]: own keys in insertion order. *)
Definition Params : Type := list (string * option string).

(** [obj[key] = value]: an own key is overwritten in place, a new key is
    appended. *)
Fixpoint obj_set (obj : Params) (key : string) (value : option string) : Params :=
  match obj with
  | [] => [(key, value)]
  | (k, v) :: rest =>
      if String.eqb k key then (k, value) :: rest
      else (k, v) :: obj_set rest key value
  end.

(** The [RequestInit] handed to [fetch]. *)
Record RequestInit : Type := mkInit {
  init_method : string;
  init_headers : list (string * string);
  init_body : option string
}.

(** Decoded JSON. *)
Inductive JValue : Type :=
| JNull
| JBool (b : bool)
| JNum (n : Z)
| JStr (s : string)
| JArr (items : list JValue)
| JObj (fields : list (string * JValue)).

(** A [Response], reduced to what [request] reads from it.  [res_text] and
    [res_json] are the outcomes of [res.text()] and [res.json()]; [None]
    means that the promise rejects. *)
Record Response : Type := mkResponse {
  res_status : Z;
  res_statusText : string;
  res_retry_after : option string;   (* headers.get("Retry-After") *)
  res_text : option string;
  res_json : option JValue
}.

(** [res.ok]: the status is in the range 200-299. *)
Definition res_ok (r : Response) : bool :=
  (200 <=? res_status r) && (res_status r <=? 299).

Inductive JsError : Type :=
| Error (message : string)     (* new Error(message) *)
| SyntaxError                  (* res.json() rejected *)
| TypeError (message : string). (* fetch rejected: transport failure *)

(** What the network does with one physical call. *)
Inductive Reply : Type :=
| Responded (r : Response)
| Failed (message : string).

Record Exchange : Type := mkExchange {
  latency : nat;     (* milliseconds until fetch settles *)
  reply : Reply
}.

(** The two places where the client suspends itself on a timer. *)
Inductive Site : Type := InThrottle | InRetry.

Inductive Event : Type :=
| EvTimeout (site : Site) (delay : Js.jsnum)  (* await setTimeout(resolve, delay) *)
| EvPush (ts : Z)                             (* requestTimestamps.push(ts) *)
| EvFetch (url : string) (options : RequestInit)
| EvText                                      (* res.text() *)
| EvJson.                                     (* res.json() *)

(** ** The client object and the world it runs in *)

Record StripeClient : Type := mkClient {
  secretKey : string;
  requestTimestamps : list Z
}.

Record World : Type := mkWorld {
  this : StripeClient;
  clock : Z;              (* Date.now() *)
  timers : list nat;      (* how late each coming timer fires, in ms *)
  trace : list Event      (* what happened so far, oldest first *)
}.

Inductive Completion (A : Type) : Type :=
| Returned (a : A)
| Thrown (e : JsError)
| Pending.                (* the awaited promise never settles *)
Arguments Returned {A} a.
Arguments Thrown {A} e.
Arguments Pending {A}.

Definition M (A : Type) : Type := World -> Completion A * World.

Definition ret {A} (a : A) : M A := fun w => (Returned a, w).

Definition bind {A B} (m : M A) (k : A -> M B) : M B :=
  fun w =>
    match m w with
    | (Returned a, w') => k a w'
    | (Thrown e, w') => (Thrown e, w')
    | (Pending, w') => (Pending, w')
    end.

Definition throw {A} (e : JsError) : M A := fun w => (Thrown e, w).
Definition pending {A} : M A := fun w => (Pending, w).

Declare Scope js_scope.
Delimit Scope js_scope with js.
Notation "x <- m ;; k" := (bind m (fun x => k))
  (at level 100, m at next level, k at level 200, right associativity)
  : js_scope.
Notation "m ;; k" := (bind m (fun _ => k))
  (at level 100, k at level 200, right associativity) : js_scope.
Local Open Scope js_scope.

Definition emit (e : Event) : M unit :=
  fun w => (Returned tt,
            mkWorld (this w) (clock w) (timers w) (trace w ++ [e])).

(** Time passing by [d] milliseconds. *)
Definition elapse (d : Z) : M unit :=
  fun w => (Returned tt,
            mkWorld (this w) (clock w + d) (timers w) (trace w)).

Definition Date_now : M Z := fun w => (Returned (clock w), w).

Definition get_timestamps : M (list Z) :=
  fun w => (Returned (requestTimestamps (this w)), w).

Definition set_timestamps (ts : list Z) : M unit :=
  fun w => (Returned tt,
            mkWorld (mkClient (secretKey (this w)) ts)
                    (clock w) (timers w) (trace w)).

Definition get_secretKey : M string :=
  fun w => (Returned (secretKey (this w)), w).

(** The longest delay a timer takes, in milliseconds (2^31 - 1). *)
Definition TIMEOUT_MAX : Z := 2147483647.

(** Whether the finite value [m * 10^e] lies between 1 and [TIMEOUT_MAX]. *)
Definition timer_accepts (m e : Z) : bool :=
  if 0 <=? e
  then (1 <=? m * 10 ^ e) && (m * 10 ^ e <=? TIMEOUT_MAX)
  else (10 ^ (- e) <=? m) && (m <=? TIMEOUT_MAX * 10 ^ (- e)).

(** The time for which [setTimeout(f, delay)] arms its timer.  The runtime
    replaces a delay that is NaN, below 1 or above [TIMEOUT_MAX] by 1, and
    drops the fraction of any other. *)
Definition timer_ms (delay : Js.jsnum) : Z :=
  match delay with
  | Js.Dec m e =>
      if timer_accepts m e then default 1 (Js.trunc delay) else 1
  | _ => 1
  end.

Arguments timer_ms : simpl never.

(** [await new Promise((resolve) => setTimeout(resolve, delay))] *)
Definition sleep (site : Site) (delay : Js.jsnum) : M unit :=
  fun w =>
    let late := Z.of_nat (hd 0%nat (timers w)) in
    (Returned tt,
     mkWorld (this w) (clock w + timer_ms delay + late) (tl (timers w))
             (trace w ++ [EvTimeout site delay])).

(** ** The class [StripeClient] *)

Definition BASE_URL : string := "https://api.stripe.com/v1".

(** [constructor()], given [process.env]. *)
Definition constructor (env : gmap string string) : Completion StripeClient :=
  match env !! "STRIPE_SECRET_KEY" with
  | Some key =>
      if Js.truthy key
      then Returned (mkClient key [])
      else Thrown (Error ("STRIPE_SECRET_KEY environment variable is not set. "
             +:+ "Get your secret key from https://dashboard.stripe.com/apikeys"))
  | None =>
      Thrown (Error ("STRIPE_SECRET_KEY environment variable is not set. "
             +:+ "Get your secret key from https://dashboard.stripe.com/apikeys"))
  end.

Definition windowMs : Z := 1000.
Definition maxRequests : nat := 25.

(** [requestTimestamps.filter((ts) => now - ts < windowMs)] *)
Definition prune (now : Z) (ts : list Z) : list Z :=
  filter (fun t => now - t < windowMs) ts.

Definition waitMs (now oldest : Z) : Z := windowMs - (now - oldest) + 50.

(** [throttle] up to its suspension point: the log is pruned and the wait,
    if any, is decided.  When the log is long enough its first element
    exists; the empty case stands for [undefined], whose arithmetic gives
    [NaN] and no wait. *)
Definition throttle_enter : M (option Z) :=
  now <- Date_now ;;
  ts <- get_timestamps ;;
  set_timestamps (prune now ts) ;;
  kept <- get_timestamps ;;
  if (maxRequests <=? length kept)%nat then
    match kept with
    | oldest :: _ =>
        if 0 <? waitMs now oldest then ret (Some (waitMs now oldest))
        else ret None
    | [] => ret None
    end
  else ret None.

(** [throttle] after its suspension point: [requestTimestamps.push(Date.now())]. *)
Definition throttle_exit : M unit :=
  now <- Date_now ;;
  ts <- get_timestamps ;;
  set_timestamps (ts ++ [now]) ;;
  emit (EvPush now).

Definition throttle : M unit :=
  wait <- throttle_enter ;;
  match wait with
  | Some d => sleep InThrottle (Js.of_Z d)
  | None => ret tt
  end ;;
  throttle_exit.

(** [Object.entries(params).filter(([, v]) => v !== undefined)] *)
Definition defined_entries (params : Params) : list (string * string) :=
  omap (fun kv => match kv.2 with
                  | Some v => Some (kv.1, v)
                  | None => None
                  end) params.

Definition is_read_verb (method : string) : bool :=
  String.eqb method "GET" || String.eqb method "DELETE".

(** The url and options that [request] hands to [fetch].  [options] holds
    the [headers] object itself, so the Content-Type set after [options]
    was created is part of what is sent. *)
Definition build (key method path : string) (params : option Params)
  : string * RequestInit :=
  let url := BASE_URL +:+ path in
  let headers := [("Authorization", "Bearer " +:+ key)] in
  match params with
  | Some p =>
      let filtered := defined_entries p in
      if is_read_verb method then
        (if (0 <? length filtered)%nat
         then url +:+ "?" +:+ Url.toString filtered
         else url,
         mkInit method headers None)
      else
        (url,
         mkInit method
                (headers ++ [("Content-Type", "application/x-www-form-urlencoded")])
                (Some (Url.toString filtered)))
  | None => (url, mkInit method headers None)
  end.

(** [await fetch(url, options)] against what the network does next; with
    nothing scripted the call never settles. *)
Definition fetch (x : option Exchange) (url : string) (options : RequestInit)
  : M Response :=
  emit (EvFetch url options) ;;
  match x with
  | Some x =>
      elapse (Z.of_nat (latency x)) ;;
      match reply x with
      | Responded r => ret r
      | Failed message => throw (TypeError message)
      end
  | None => pending
  end.

(** [await res.text().catch(() => "")] *)
Definition text_or_empty (r : Response) : M string :=
  emit EvText ;;
  ret (default "" (res_text r)).

(** [await res.json()] *)
Definition json (r : Response) : M JValue :=
  emit EvJson ;;
  match res_json r with
  | Some v => ret v
  | None => throw SyntaxError
  end.

(** [retryAfter ? Number(retryAfter) : 2] *)
Definition waitSec (retryAfter : option string) : Js.jsnum :=
  match retryAfter with
  | Some h => if Js.truthy h then Js.Number h else Js.of_Z 2
  | None => Js.of_Z 2
  end.

Definition error_message (r : Response) (errorBody : string) : string :=
  "Stripe API error (" +:+ Js.String_of_number (res_status r) +:+ " "
    +:+ res_statusText r +:+ "): " +:+ errorBody.

(** What [request] does with a response that is not a 429. *)
Definition settle (r : Response) : M JValue :=
  if negb (res_ok r) then
    errorBody <- text_or_empty r ;;
    throw (Error (error_message r errorBody))
  else if res_status r =? 204 then ret (JObj [])
  else json r.

(** One physical attempt: lines 50-74 of [request]. *)
Definition attempt (x : option Exchange) (method path : string)
  (params : option Params) : M Response :=
  throttle ;;
  key <- get_secretKey ;;
  let '(url, options) := build key method path params in
  fetch x url options.

(** [request(method, path, params)], run against the scripted network
    [net]: one exchange is consumed by each physical call. *)
Fixpoint request (net : list Exchange) (method path : string)
  (params : option Params) : M JValue :=
  res <- attempt (head net) method path params ;;
  if res_status res =? 429 then
    sleep InRetry (Js.mul (waitSec (res_retry_after res)) 1000) ;;
    match net with
    | _ :: net' => request net' method path params
    | [] => pending
    end
  else settle res.

(** ** Resource operations

    Each operation assembles a verb, a path and a parameter object and
    hands them to [request]. *)

Record PendingRequest : Type := mkPending {
  verb : string;
  path : string;
  parameters : option Params
}.

Definition perform (net : list Exchange) (p : PendingRequest) : M JValue :=
  request net (verb p) (path p) (parameters p).

(** [limit ? String(limit) : undefined]: zero is falsy. *)
Definition limit_param (limit : option Z) : option string :=
  match limit with
  | Some n => if n =? 0 then None else Some (Js.String_of_number n)
  | None => None
  end.

(** [active !== undefined ? String(active) : undefined] *)
Definition active_param (active : option bool) : option string :=
  match active with
  | Some b => Some (Js.String_of_bool b)
  | None => None
  end.

Definition createCustomer (email name phone description : option string)
  : PendingRequest :=
  mkPending "POST" "/customers"
    (Some [("email", email); ("name", name); ("phone", phone);
           ("description", description)]).

Definition getCustomer (customerId : string) : PendingRequest :=
  mkPending "GET" ("/customers/" +:+ customerId) None.

Definition updateCustomer (customerId : string)
  (email name phone description : option string) : PendingRequest :=
  mkPending "POST" ("/customers/" +:+ customerId)
    (Some [("email", email); ("name", name); ("phone", phone);
           ("description", description)]).

Definition listCustomers (limit : option Z) (startingAfter email : option string)
  : PendingRequest :=
  mkPending "GET" "/customers"
    (Some [("limit", limit_param limit); ("starting_after", startingAfter);
           ("email", email)]).

Definition deleteCustomer (customerId : string) : PendingRequest :=
  mkPending "DELETE" ("/customers/" +:+ customerId) None.

Definition createProduct (name : string) (description : option string)
  (active : option bool) : PendingRequest :=
  mkPending "POST" "/products"
    (Some [("name", Some name); ("description", description);
           ("active", active_param active)]).

Definition getProduct (productId : string) : PendingRequest :=
  mkPending "GET" ("/products/" +:+ productId) None.

Definition listProducts (limit : option Z) (active : option bool)
  : PendingRequest :=
  mkPending "GET" "/products"
    (Some [("limit", limit_param limit); ("active", active_param active)]).

Definition createPrice (productId : string) (unitAmount : Z) (currency : string)
  (recurringInterval : option string) : PendingRequest :=
  let params : Params :=
    [("product", Some productId);
     ("unit_amount", Some (Js.String_of_number unitAmount));
     ("currency", Some currency)] in
  let params :=
    match recurringInterval with
    | Some interval =>
        if Js.truthy interval
        then obj_set params "recurring[interval]" (Some interval)
        else params
    | None => params
    end in
  mkPending "POST" "/prices" (Some params).

Definition getPrice (priceId : string) : PendingRequest :=
  mkPending "GET" ("/prices/" +:+ priceId) None.

Definition listPrices (productId : option string) (active : option bool)
  (limit : option Z) : PendingRequest :=
  mkPending "GET" "/prices"
    (Some [("product", productId); ("active", active_param active);
           ("limit", limit_param limit)]).

Definition createSubscription (customerId priceId : string) : PendingRequest :=
  mkPending "POST" "/subscriptions"
    (Some [("customer", Some customerId); ("items[0][price]", Some priceId)]).

Definition getSubscription (subscriptionId : string) : PendingRequest :=
  mkPending "GET" ("/subscriptions/" +:+ subscriptionId) None.

Definition cancelSubscription (subscriptionId : string) : PendingRequest :=
  mkPending "DELETE" ("/subscriptions/" +:+ subscriptionId) None.

Definition listSubscriptions (customerId status : option string)
  (limit : option Z) : PendingRequest :=
  mkPending "GET" "/subscriptions"
    (Some [("customer", customerId); ("status", status);
           ("limit", limit_param limit)]).

Definition getInvoice (invoiceId : string) : PendingRequest :=
  mkPending "GET" ("/invoices/" +:+ invoiceId) None.

Definition listInvoices (customerId status : option string) (limit : option Z)
  : PendingRequest :=
  mkPending "GET" "/invoices"
    (Some [("customer", customerId); ("status", status);
           ("limit", limit_param limit)]).

Definition getBalance : PendingRequest := mkPending "GET" "/balance" None.

(** The request an operation puts on the wire for a client holding [key]. *)
Definition wire (key : string) (p : PendingRequest) : string * RequestInit :=
  build key (verb p) (path p) (parameters p).

(** ** Reading traces *)

Definition fetches (tr : list Event) : list (string * RequestInit) :=
  omap (fun e => match e with EvFetch u o => Some (u, o) | _ => None end) tr.

Definition pushes (tr : list Event) : list Z :=
  omap (fun e => match e with EvPush t => Some t | _ => None end) tr.

Definition timeouts (site : Site) (tr : list Event) : list Js.jsnum :=
  omap (fun e => match e, site with
                 | EvTimeout InThrottle d, InThrottle => Some d
                 | EvTimeout InRetry d, InRetry => Some d
                 | _, _ => None
                 end) tr.

Definition body_reads (tr : list Event) : list Event :=
  omap (fun e => match e with
                 | EvText => Some EvText
                 | EvJson => Some EvJson
                 | _ => None
                 end) tr.

(** ** Sequential use: calls issued one after the other *)

(** Total time covered by a list of gaps. *)
Definition span (gaps : list nat) : Z := Z.of_nat (sum_list gaps).

(** The caller issues one [throttle] call [g] ms after the previous one
    has returned, for each [g] of [gaps]. *)
Fixpoint calls (gaps : list nat) : M unit :=
  match gaps with
  | [] => ret tt
  | g :: gs => elapse (Z.of_nat g) ;; throttle ;; calls gs
  end.

(** When each call is issued, provided none of them is held back. *)
Fixpoint issue_times (start : Z) (gaps : list nat) : list Z :=
  match gaps with
  | [] => []
  | g :: gs => (start + Z.of_nat g) :: issue_times (start + Z.of_nat g) gs
  end.

(** The wait decided by [throttle] at time [now] on the pruned log. *)
Definition wait_for (now : Z) (kept : list Z) : option Z :=
  if (maxRequests <=? length kept)%nat then
    match kept with
    | oldest :: _ =>
        if 0 <? waitMs now oldest then Some (waitMs now oldest) else None
    | [] => None
    end
  else None.

Definition with_timestamps (w : World) (ts : list Z) : World :=
  mkWorld (mkClient (secretKey (this w)) ts) (clock w) (timers w) (trace w).

(** The world after [throttle], written out. *)
Definition throttled (w : World) : World :=
  let now := clock w in
  let kept := prune now (requestTimestamps (this w)) in
  match wait_for now kept with
  | Some d =>
      let woke := now + timer_ms (Js.of_Z d) + Z.of_nat (hd 0%nat (timers w)) in
      mkWorld (mkClient (secretKey (this w)) (kept ++ [woke])) woke
              (tl (timers w))
              (trace w ++ [EvTimeout InThrottle (Js.Dec d 0); EvPush woke])
  | None =>
      mkWorld (mkClient (secretKey (this w)) (kept ++ [now])) now (timers w)
              (trace w ++ [EvPush now])
  end.

(** ** Concurrent use: callers interleaved at suspension points

    JavaScript runs each caller without interruption until it awaits.
    [throttle] awaits once, on its timer; a caller is therefore either
    about to enter [throttle], suspended on the timer, or past it. *)

Module Concurrent.

Inductive Caller : Type :=
| Ready
| Suspended (wake : Z)   (* the timer fires no earlier than [wake] *)
| Passed.

Record Pool : Type := mkPool {
  world : World;
  callers : list Caller
}.

Inductive Action : Type :=
| Tick (d : nat)         (* time passes *)
| Run (i : nat).         (* the event loop resumes caller [i] *)

Definition resume (c : Caller) (w : World) : Caller * World :=
  match c with
  | Ready =>
      match throttle_enter w with
      | (Returned (Some d), w1) =>
          (Suspended (clock w1 + timer_ms (Js.of_Z d)),
           (emit (EvTimeout InThrottle (Js.of_Z d)) w1).2)
      | (Returned None, w1) => (Passed, (throttle_exit w1).2)
      | (_, w1) => (c, w1)
      end
  | Suspended wake =>
      if wake <=? clock w then (Passed, (throttle_exit w).2) else (c, w)
  | Passed => (c, w)
  end.

Definition step (p : Pool) (a : Action) : Pool :=
  match a with
  | Tick d => mkPool (elapse (Z.of_nat d) (world p)).2 (callers p)
  | Run i =>
      match callers p !! i with
      | Some c =>
          let '(c', w') := resume c (world p) in
          mkPool w' (<[i := c']> (callers p))
      | None => p
      end
  end.

Definition run (actions : list Action) (p : Pool) : Pool :=
  fold_left step actions p.

End Concurrent.

(** How many calls were let through in the window starting at [t]. *)
Definition pushes_in_window (t : Z) (tr : list Event) : nat :=
  length (filter (fun ts => t <= ts < t + windowMs) (pushes tr)).

(** A client just constructed, in a world where nothing has happened. *)
Definition fresh (key : string) (now : Z) (late : list nat) : World :=
  mkWorld (mkClient key []) now late [].

(** [s] has [sub] as a contiguous part. *)
Definition Contains (s sub : string) : Prop :=
  exists before after, s = before +:+ sub +:+ after.

(** ** Auxiliary notions used in the statements *)

(** The log is kept in the order of the pushes, and never runs ahead of the
    clock. *)
Definition ordered (w : World) : Prop :=
  StronglySorted Z.le (requestTimestamps (this w))
  /\ Forall (fun t => t <= clock w) (requestTimestamps (this w)).

(** Every call of the run finds fewer than [maxRequests] earlier calls
    less than a window old: no window that ends at a call holds more than
    [maxRequests] calls.  [history] lists the calls made so far. *)
Fixpoint sparse (history : list Z) (start : Z) (gaps : list nat) : Prop :=
  match gaps with
  | [] => True
  | g :: gs =>
      (length (prune (start + Z.of_nat g) history) < maxRequests)%nat
      /\ sparse (history ++ [start + Z.of_nat g]) (start + Z.of_nat g) gs
  end.

(** Between calls the log holds at most [maxRequests] timestamps, or one
    more whose first is already out of the window. *)
Definition bounded (w : World) : Prop :=
  (length (requestTimestamps (this w)) <= maxRequests)%nat
  \/ exists oldest rest,
       requestTimestamps (this w) = oldest :: rest
       /\ length rest = maxRequests
       /\ windowMs <= clock w - oldest.

(** The world once [fetch] has been called and has settled after [lat] ms. *)
Definition fetched (w : World) (call : string * RequestInit) (lat : Z) : World :=
  mkWorld (this w) (clock w + lat) (timers w)
          (trace w ++ [EvFetch call.1 call.2]).

(** The completion of [request] on a response that is not a 429. *)
Definition outcome_of (r : Response) : Completion JValue :=
  if negb (res_ok r) then
    Thrown (Error (error_message r (default "" (res_text r))))
  else if res_status r =? 204 then Returned (JObj [])
  else match res_json r with
       | Some v => Returned v
       | None => Thrown SyntaxError
       end.

(** Which body readers that completion went through. *)
Definition reads_of (r : Response) : list Event :=
  if negb (res_ok r) then [EvText]
  else if res_status r =? 204 then []
  else [EvJson].

(** The exchange is a response with status 429. *)
Definition rejected (x : Exchange) : bool :=
  match reply x with
  | Responded r => res_status r =? 429
  | Failed _ => false
  end.

Definition is_rejection (x : Exchange) : Prop := rejected x = true.

Definition retry_header (x : Exchange) : option string :=
  match reply x with
  | Responded r => res_retry_after r
  | Failed _ => None
  end.

(** The delay handed to the timer after a 429 carrying the given header. *)
Definition retry_delay (retryAfter : option string) : Js.jsnum :=
  Js.mul (waitSec retryAfter) 1000.

(** The completion of [request] on an exchange that ends it. *)
Definition result_of (x : Exchange) : Completion JValue :=
  match reply x with
  | Responded r => outcome_of r
  | Failed message => Thrown (TypeError message)
  end.

Definition total_wait (delays : list Js.jsnum) : Z :=
  foldr (fun d acc => timer_ms d + acc) 0 delays.

Definition read_body (w : World) (r : Response) : World :=
  mkWorld (this w) (clock w) (timers w) (trace w ++ reads_of r).


Definition dq : string := String (ascii_of_nat 34) EmptyString.

(** The body of the 404 example: a JSON object whose error member has the
    message [No such customer]. *)
Definition no_such_customer : string :=
  "{" +:+ dq +:+ "error" +:+ dq +:+ ":{" +:+ dq +:+ "message" +:+ dq +:+ ":"
      +:+ dq +:+ "No such customer" +:+ dq +:+ "}}".

Definition not_found : Response :=
  mkResponse 404 "Not Found" None (Some no_such_customer) None.

(** Characters that may occur in a serialised parameter. *)
Definition url_safe (c : ascii) : bool :=
  Url.unreserved c || (Js.code c =? 43) || (Js.code c =? 37).

(** The pairs an operation sends. *)
Definition sent_pairs (p : PendingRequest) : list (string * string) :=
  match parameters p with
  | Some params => defined_entries params
  | None => []
  end.

(** Fifty-one callers of one new client: all enter [throttle] at time 0,
    1050 ms pass, and the event loop resumes the callers that were left
    waiting. *)
Definition burst : list Concurrent.Action :=
  (Concurrent.Run <$> seq 0 51) ++ [Concurrent.Tick 1050]
    ++ (Concurrent.Run <$> seq 25 26).

Definition crowd : Concurrent.Pool :=
  Concurrent.mkPool (fresh "sk_test" 0 []) (replicate 51 Concurrent.Ready).

(** Sample responses: a 429 asking for 3 seconds, a 429 without the
    header, and a customer found. *)
Definition busy_three : Response :=
  mkResponse 429 "Too Many Requests" (Some "3") (Some "") None.


Definition found_customer : Response :=
  mkResponse 200 "OK" None None (Some (JObj [("id", JStr "cus_1")])).





(** ** Sessions: operations awaited one after the other *)

(** One operation of a caller that awaits each result before going on:
    the idle time before it, what the network does with its physical
    calls, and the request itself. *)
Record Op : Type := mkOp {
  op_gap : nat;
  op_net : list Exchange;
  op_request : PendingRequest
}.

(** The world after the operation, whether it returned, threw or is still
    pending when the script runs out. *)
Definition run_op (o : Op) (w : World) : World :=
  (perform (op_net o) (op_request o) (elapse (Z.of_nat (op_gap o)) w).2).2.

Definition session (ops : list Op) (w : World) : World :=
  fold_left (fun w o => run_op o w) ops w.

(** Pushes are paced when each of them has fewer than [maxRequests]
    earlier pushes less than a window before it. *)
Inductive paced : list Z -> Prop :=
| paced_nil : paced []
| paced_snoc (h : list Z) (x : Z) :
    paced h -> (length (prune x h) < maxRequests)%nat -> paced (h ++ [x]).

(** From now on the stored log and the whole history of pushes prune to
    the same list. *)
Definition agrees (w : World) : Prop :=
  forall now, clock w <= now ->
    prune now (requestTimestamps (this w)) = prune now (pushes (trace w)).

(** A wait decided by [throttle]: an integer above the 50 ms margin and at
    most a window plus the margin. *)
Definition wait_in_range (d : Js.jsnum) : bool :=
  match d with
  | Js.Dec z e => (e =? 0) && (50 <? z) && (z <=? 1050)
  | _ => false
  end.

Record healthy (w : World) : Prop := mkHealthy {
  healthy_paced : paced (pushes (trace w));
  healthy_bounded : bounded w;
  healthy_agrees : agrees w;
  healthy_past : Forall (fun t => t <= clock w) (requestTimestamps (this w));
  healthy_waits :
    Forall (fun d => wait_in_range d = true) (timeouts InThrottle (trace w))
}.

(** ** Decoding a serialised parameter *)

Module Urldecode.

Definition hex_value (c : ascii) : option Z :=
  let n := Js.code c in
  if (48 <=? n) && (n <=? 57) then Some (n - 48)
  else if (65 <=? n) && (n <=? 70) then Some (n - 55)
  else if (97 <=? n) && (n <=? 102) then Some (n - 87)
  else None.

(** The urlencoded parser's view of one name or value: [+] is a space and
    [%XY] is the byte with that hexadecimal code. *)
Fixpoint decode (s : string) : string :=
  match s with
  | EmptyString => EmptyString
  | String c s' =>
      if Js.code c =? 43 then String " " (decode s')
      else if Js.code c =? 37 then
        match s' with
        | String h (String l s'') =>
            match hex_value h, hex_value l with
            | Some a, Some b =>
                String (ascii_of_nat (Z.to_nat (16 * a + b))) (decode s'')
            | _, _ => String c (decode s')
            end
        | _ => String c (decode s')
        end
      else String c (decode s')
  end.

End Urldecode.

(** ** The tool layer (tools.ts) and the sandbox entry point *)

(** A tool call with its arguments as the handler receives them. *)
Inductive ToolCall : Type :=
| stripe_create_customer (email name phone description : option string)
| stripe_get_customer (customerId : string)
| stripe_update_customer (customerId : string)
    (email name phone description : option string)
| stripe_list_customers (limit : option Z) (startingAfter email : option string)
| stripe_delete_customer (customerId : string)
| stripe_create_product (name : string) (description : option string)
    (active : option bool)
| stripe_get_product (productId : string)
| stripe_list_products (limit : option Z) (active : option bool)
| stripe_create_price (productId : string) (unitAmount : Z) (currency : string)
    (recurringInterval : option string)
| stripe_get_price (priceId : string)
| stripe_list_prices (productId : option string) (active : option bool)
    (limit : option Z)
| stripe_create_subscription (customerId priceId : string)
| stripe_get_subscription (subscriptionId : string)
| stripe_cancel_subscription (subscriptionId : string)
| stripe_list_subscriptions (customerId status : option string) (limit : option Z)
| stripe_get_invoice (invoiceId : string)
| stripe_list_invoices (customerId status : option string) (limit : option Z)
| stripe_get_balance.

(** The client method each handler calls, with the arguments in the order
    the handler passes them. *)
Definition dispatch (t : ToolCall) : PendingRequest :=
  match t with
  | stripe_create_customer email name phone description =>
      createCustomer email name phone description
  | stripe_get_customer customerId => getCustomer customerId
  | stripe_update_customer customerId email name phone description =>
      updateCustomer customerId email name phone description
  | stripe_list_customers limit startingAfter email =>
      listCustomers limit startingAfter email
  | stripe_delete_customer customerId => deleteCustomer customerId
  | stripe_create_product name description active =>
      createProduct name description active
  | stripe_get_product productId => getProduct productId
  | stripe_list_products limit active => listProducts limit active
  | stripe_create_price productId unitAmount currency recurringInterval =>
      createPrice productId unitAmount currency recurringInterval
  | stripe_get_price priceId => getPrice priceId
  | stripe_list_prices productId active limit => listPrices productId active limit
  | stripe_create_subscription customerId priceId =>
      createSubscription customerId priceId
  | stripe_get_subscription subscriptionId => getSubscription subscriptionId
  | stripe_cancel_subscription subscriptionId => cancelSubscription subscriptionId
  | stripe_list_subscriptions customerId status limit =>
      listSubscriptions customerId status limit
  | stripe_get_invoice invoiceId => getInvoice invoiceId
  | stripe_list_invoices customerId status limit =>
      listInvoices customerId status limit
  | stripe_get_balance => getBalance
  end.

(** What a handler returns: the text of its single content item and the
    [isError] flag, absent on success. *)
Record ToolResult : Type := mkResult {
  result_text : string;
  result_isError : bool
}.

(** The state that [registerTools] closes over, with the runtime around it:
    [_client] is [null] until a construction succeeds. *)
Record Server : Type := mkServer {
  client_slot : option StripeClient;
  server_clock : Z;
  server_timers : list nat;
  server_trace : list Event
}.

Definition new_server (now : Z) (late : list nat) : Server :=
  mkServer None now late [].

Section Handlers.

(** The message of the [SyntaxError] with which [res.json()] rejects, and
    the text a handler makes of a result: [JSON.stringify] of the payload
    it assembles, which can itself throw on a result of the wrong shape. *)
Variable syntax_message : string.
Variable render : ToolCall -> JValue -> Completion string.

(** [error.message]; every value thrown below a handler is an [Error]. *)
Definition message_of (e : JsError) : string :=
  match e with
  | Error message => message
  | SyntaxError => syntax_message
  | TypeError message => message
  end.

(** [errorResult(error)] *)
Definition errorResult (e : JsError) : ToolResult :=
  mkResult ("Error: " +:+ message_of e) true.

(** [getClient()]: the client is constructed on first use and kept. *)
Definition getClient (env : gmap string string) (s : Server)
  : Completion StripeClient * Server :=
  match client_slot s with
  | Some c => (Returned c, s)
  | None =>
      match constructor env with
      | Returned c =>
          (Returned c,
           mkServer (Some c) (server_clock s) (server_timers s) (server_trace s))
      | Thrown e => (Thrown e, s)
      | Pending => (Pending, s)
      end
  end.

(** One handler run: [try { result = await getClient().op(...); return
    text } catch (error) { return errorResult(error) }].  [None] stands for
    a handler that never settles. *)
Definition tool_call (env : gmap string string) (net : list Exchange)
  (t : ToolCall) (s : Server) : option ToolResult * Server :=
  match getClient env s with
  | (Returned c, s1) =>
      let w := mkWorld c (server_clock s1) (server_timers s1) (server_trace s1) in
      let '(res, w') := perform net (dispatch t) w in
      let s2 := mkServer (Some (this w')) (clock w') (timers w') (trace w') in
      match res with
      | Returned v =>
          match render t v with
          | Returned text => (Some (mkResult text false), s2)
          | Thrown e => (Some (errorResult e), s2)
          | Pending => (None, s2)
          end
      | Thrown e => (Some (errorResult e), s2)
      | Pending => (None, s2)
      end
  | (Thrown e, s1) => (Some (errorResult e), s1)
  | (Pending, s1) => (None, s1)
  end.

(** A tool call as the server meets it: the idle time before it, the
    environment and the network at that moment, and the call. *)
Record Incoming : Type := mkIncoming {
  in_gap : nat;
  in_env : gmap string string;
  in_net : list Exchange;
  in_call : ToolCall
}.

Definition idle (g : nat) (s : Server) : Server :=
  mkServer (client_slot s) (server_clock s + Z.of_nat g) (server_timers s)
           (server_trace s).

Definition serve_one (i : Incoming) (s : Server) : Server :=
  (tool_call (in_env i) (in_net i) (in_call i) (idle (in_gap i) s)).2.

(** Tool calls handled one after the other. *)
Definition serve (calls : list Incoming) (s : Server) : Server :=
  fold_left (fun s i => serve_one i s) calls s.

End Handlers.

(** [process.env.STRIPE_SECRET_KEY ??= "sandbox-token"] of
    [createSandboxServer]: only a missing variable is filled in. *)
Definition sandbox_env (env : gmap string string) : gmap string string :=
  match env !! "STRIPE_SECRET_KEY" with
  | Some _ => env
  | None => <["STRIPE_SECRET_KEY" := "sandbox-token"]> env
  end.

(** The world a server's client runs in. *)
Definition world_of (c : StripeClient) (s : Server) : World :=
  mkWorld c (server_clock s) (server_timers s) (server_trace s).

(** The server after a handler has run with the client [c]. *)
Definition served (net : list Exchange) (t : ToolCall) (c : StripeClient)
  (s : Server) : Server :=
  let w' := (perform net (dispatch t) (world_of c s)).2 in
  mkServer (Some (this w')) (clock w') (timers w') (trace w').

(** Every call fetched so far carries the bearer header of [key]. *)
Definition all_bearer (key : string) (tr : list Event) : Prop :=
  Forall (fun call => ("Authorization", "Bearer " +:+ key) ∈ init_headers call.2)
         (fetches tr).

Definition server_ok (s : Server) : Prop :=
  match client_slot s with
  | Some c => healthy (world_of c s) /\ all_bearer (secretKey c) (server_trace s)
  | None => server_trace s = []
  end.

(** The key of each pair, in order. *)
Definition keys_of (p : PendingRequest) : list string :=
  (fun kv => kv.1) <$> sent_pairs p.

(** Closes a goal stating that a list of concrete names has no repetition. *)
Ltac distinct_names :=
  simpl;
  repeat (apply NoDup_cons_2;
          [rewrite ?elem_of_cons, elem_of_nil; intuition discriminate|]);
  apply NoDup_nil_2.

Ltac run_js :=
  unfold throttle, throttle_enter, throttle_exit, attempt, fetch, settle,
    text_or_empty, json, sleep, emit, elapse, Date_now, get_timestamps,
    set_timestamps, get_secretKey, bind, ret, throw, pending; simpl.

(** * Properties *)

(** ** Sanity checks of the runtime primitives *)

Example Number_5 : Js.Number "5" = Js.Dec 5 0.
Proof.
  reflexivity.
Qed.

Example Number_frac : Js.Number " 1.5e1 " = Js.Dec 15 0.
Proof.
  reflexivity.
Qed.

Example Number_hex : Js.Number "0x1F" = Js.Dec 31 0.
Proof.
  reflexivity.
Qed.

Example Number_date : Js.Number "Wed, 21 Oct 2015 07:28:00 GMT" = Js.NaN.
Proof.
  reflexivity.
Qed.

Example Number_empty : Js.Number "" = Js.Dec 0 0.
Proof.
  reflexivity.
Qed.

Example Number_neg : Js.Number "-12" = Js.Dec (-12) 0.
Proof.
  reflexivity.
Qed.

Example Number_point : Js.Number ".5" = Js.Dec 5 (-1).
Proof.
  reflexivity.
Qed.

Example Number_bare_prefix : Js.Number "0x" = Js.NaN.
Proof.
  reflexivity.
Qed.

Example Number_infinity : Js.Number "-Infinity" = Js.NegInf.
Proof.
  reflexivity.
Qed.

Example Number_junk : Js.Number "12abc" = Js.NaN.
Proof.
  reflexivity.
Qed.

Example String_5000 : Js.String_of_number 5000 = "5000".
Proof.
  reflexivity.
Qed.

Example String_0 : Js.String_of_number 0 = "0".
Proof.
  reflexivity.
Qed.

Example String_neg : Js.String_of_number (-7) = "-7".
Proof.
  reflexivity.
Qed.

Example encode_email : Url.encode "a@b.com" = "a%40b.com".
Proof.
  reflexivity.
Qed.

Example encode_brackets : Url.encode "items[0][price]" = "items%5B0%5D%5Bprice%5D".
Proof.
  reflexivity.
Qed.

Example encode_space : Url.encode "Jane Doe" = "Jane+Doe".
Proof.
  reflexivity.
Qed.

(** ** Running the monad *)

Lemma throttle_enter_run (w : World) :
  throttle_enter w =
  (Returned (wait_for (clock w) (prune (clock w) (requestTimestamps (this w)))),
   with_timestamps w (prune (clock w) (requestTimestamps (this w)))).
Proof.
  unfold wait_for, with_timestamps. run_js.
  repeat case_match; reflexivity.
Qed.

Lemma timer_ms_of_Z (d : Z) :
  timer_ms (Js.of_Z d) = if (1 <=? d) && (d <=? TIMEOUT_MAX) then d else 1.
Proof.
  unfold timer_ms, timer_accepts, Js.of_Z, Js.trunc. simpl.
  rewrite Z.mul_1_r. reflexivity.
Qed.

Lemma timer_ms_within (d : Z) :
  1 <= d <= TIMEOUT_MAX -> timer_ms (Js.of_Z d) = d.
Proof.
  intros [Hlo Hhi]. rewrite timer_ms_of_Z.
  apply Z.leb_le in Hlo, Hhi. rewrite Hlo, Hhi. reflexivity.
Qed.

Lemma timer_ms_beyond (d : Z) :
  TIMEOUT_MAX < d -> timer_ms (Js.of_Z d) = 1.
Proof.
  intros Hd. rewrite timer_ms_of_Z.
  apply Z.leb_gt in Hd. rewrite Hd, andb_false_r. reflexivity.
Qed.

Lemma timer_ms_pos (delay : Js.jsnum) : 1 <= timer_ms delay.
Proof.
  destruct delay as [| | |m e]; try (unfold timer_ms; lia).
  unfold timer_ms, timer_accepts, Js.trunc.
  destruct (Z.leb_spec 0 e) as [He|He]; simpl.
  - destruct (Z.leb_spec 1 (m * 10 ^ e)); simpl; [|lia].
    destruct (_ <=? _); lia.
  - destruct (Z.leb_spec (10 ^ (- e)) m) as [Hm|Hm]; simpl; [|lia].
    destruct (_ <=? _); [|lia].
    assert (0 < 10 ^ (- e)) by (apply Z.pow_pos_nonneg; lia).
    apply Z.quot_le_lower_bound; lia.
Qed.

Lemma throttle_run (w : World) : throttle w = (Returned tt, throttled w).
Proof.
  unfold throttle, bind. rewrite throttle_enter_run. unfold throttled.
  destruct (wait_for _ _) as [d|].
  - unfold sleep, with_timestamps. run_js.
    rewrite <- app_assoc. reflexivity.
  - reflexivity.
Qed.

(** ** Pruning *)

Lemma elem_of_prune (now : Z) (l : list Z) (t : Z) :
  t ∈ prune now l <-> t ∈ l /\ now - t < windowMs.
Proof.
  unfold prune. rewrite list_elem_of_filter. tauto.
Qed.

Lemma prune_all (now : Z) (l : list Z) :
  Forall (fun t => now - t < windowMs) l -> prune now l = l.
Proof.
  induction 1 as [|t l Ht _ IH]; [reflexivity|].
  unfold prune in *. rewrite filter_cons_True by exact Ht. now rewrite IH.
Qed.

Lemma prune_none (now : Z) (l : list Z) :
  Forall (fun t => windowMs <= now - t) l -> prune now l = [].
Proof.
  induction 1 as [|t l Ht _ IH]; [reflexivity|].
  unfold prune in *. rewrite filter_cons_False by lia. exact IH.
Qed.

Lemma prune_prune (now now' : Z) (l : list Z) :
  now <= now' -> prune now' (prune now l) = prune now' l.
Proof.
  intros Hle. unfold prune. induction l as [|t l IH]; [reflexivity|].
  rewrite !filter_cons. repeat case_decide; try lia.
  - rewrite filter_cons_True by assumption. now rewrite IH.
  - rewrite filter_cons_False by assumption. exact IH.
  - exact IH.
Qed.

Lemma prune_length (now : Z) (l : list Z) :
  (length (prune now l) <= length l)%nat.
Proof.
  apply length_filter.
Qed.

Lemma prune_length_mono (now now' : Z) (l : list Z) :
  now <= now' -> (length (prune now' l) <= length (prune now l))%nat.
Proof.
  intros Hle. rewrite <- (prune_prune now now' l Hle). apply prune_length.
Qed.

Lemma prune_sorted_head (now : Z) (l : list Z) (oldest : Z) (rest : list Z) :
  StronglySorted Z.le l -> prune now l = oldest :: rest ->
  forall t, t ∈ prune now l -> oldest <= t.
Proof.
  intros Hs. induction Hs as [|x l Hs IH Hx]; intros Heq t Ht.
  - rewrite Heq in Ht. discriminate Heq.
  - unfold prune in *. rewrite filter_cons in Heq, Ht.
    case_decide.
    + injection Heq as <- _. apply elem_of_cons in Ht as [->|Ht]; [lia|].
      apply list_elem_of_filter in Ht as [_ Ht].
      rewrite Forall_forall in Hx. now apply Hx.
    + now apply IH.
Qed.

Lemma wait_for_below (now : Z) (kept : list Z) :
  (length kept < maxRequests)%nat -> wait_for now kept = None.
Proof.
  intros Hlt. unfold wait_for.
  destruct (Nat.leb_spec maxRequests (length kept)); [lia|reflexivity].
Qed.

Lemma wait_for_full (now oldest : Z) (rest : list Z) :
  (maxRequests <= length (oldest :: rest))%nat ->
  wait_for now (oldest :: rest)
  = if 0 <? waitMs now oldest then Some (waitMs now oldest) else None.
Proof.
  intros Hle. unfold wait_for.
  destruct (Nat.leb_spec maxRequests (length (oldest :: rest))); [reflexivity|lia].
Qed.

(** ** Runs of calls *)

Lemma issue_times_ge (start : Z) (gaps : list nat) :
  Forall (fun t => start <= t) (issue_times start gaps).
Proof.
  revert start. induction gaps as [|g gs IH]; intros start; simpl.
  - constructor.
  - constructor; [lia|].
    eapply Forall_impl; [apply IH|]. simpl. intros t Ht. lia.
Qed.

Lemma issue_times_le (start : Z) (gaps : list nat) :
  Forall (fun t => t <= start + span gaps) (issue_times start gaps).
Proof.
  revert start. induction gaps as [|g gs IH]; intros start; simpl.
  - constructor.
  - assert (Hs : span (g :: gs) = Z.of_nat g + span gs)
      by (unfold span; simpl; lia).
    pose proof (Nat2Z.is_nonneg (sum_list gs)) as Hnn. fold (span gs) in Hnn.
    constructor; [lia|].
    eapply Forall_impl; [apply IH|]. simpl. intros t Ht. lia.
Qed.

Lemma issue_times_length (start : Z) (gaps : list nat) :
  length (issue_times start gaps) = length gaps.
Proof.
  revert start. induction gaps as [|g gs IH]; intros start; simpl;
    [reflexivity|now rewrite IH].
Qed.

Lemma span_cons (g : nat) (gs : list nat) :
  span (g :: gs) = Z.of_nat g + span gs.
Proof.
  unfold span. simpl. lia.
Qed.

Lemma span_nonneg (gs : list nat) : 0 <= span gs.
Proof.
  unfold span. lia.
Qed.

(** While the pruned log and the calls to come stay within the maximum,
    no call is held back: each is pushed at the time it is issued. *)
Lemma calls_not_delayed (gaps : list nat) : forall w : World,
  (length (prune (clock w) (requestTimestamps (this w))) + length gaps
   <= maxRequests)%nat ->
  exists w', calls gaps w = (Returned tt, w')
    /\ trace w' = trace w ++ (EvPush <$> issue_times (clock w) gaps)
    /\ clock w' = clock w + span gaps
    /\ timers w' = timers w
    /\ secretKey (this w') = secretKey (this w).
Proof.
  induction gaps as [|g gs IH]; intros w Hlen.
  - exists w. simpl. rewrite app_nil_r. unfold span. simpl.
    repeat split; lia.
  - simpl in Hlen. simpl calls. unfold bind at 1. unfold elapse at 1.
    unfold bind at 1. rewrite throttle_run.
    set (w1 := mkWorld (this w) (clock w + Z.of_nat g) (timers w) (trace w)).
    assert (Hk : (length (prune (clock w1) (requestTimestamps (this w1)))
                  <= length (prune (clock w) (requestTimestamps (this w))))%nat)
      by (apply prune_length_mono; simpl; lia).
    unfold throttled. rewrite wait_for_below by lia.
    match goal with |- context [calls gs ?w2] =>
      destruct (IH w2) as (w' & Hrun & Htr & Hclk & Htm & Hkey)
    end.
    + simpl. unfold prune at 1. rewrite filter_app, length_app.
      pose proof (length_filter (fun t => clock w + Z.of_nat g - t < windowMs)
                    [clock w + Z.of_nat g]) as Hone.
      simpl in Hone. fold (prune (clock w + Z.of_nat g)
        (prune (clock w + Z.of_nat g) (requestTimestamps (this w)))).
      rewrite prune_prune by lia. simpl in Hk. lia.
    + exists w'. rewrite Hrun, Htr, Hclk, Htm, Hkey. simpl.
      rewrite span_cons, <- app_assoc. simpl. repeat split; lia.
Qed.

(** Calls that all fall in one window and fit under the maximum leave the
    log extended by exactly their issue times. *)
Lemma calls_within_window (gaps : list nat) : forall w : World,
  (length (requestTimestamps (this w)) + length gaps <= maxRequests)%nat ->
  Forall (fun t => clock w + span gaps - t < windowMs)
         (requestTimestamps (this w)) ->
  span (tail gaps) < windowMs ->
  calls gaps w =
  (Returned tt,
   mkWorld (mkClient (secretKey (this w))
              (requestTimestamps (this w) ++ issue_times (clock w) gaps))
           (clock w + span gaps) (timers w)
           (trace w ++ (EvPush <$> issue_times (clock w) gaps))).
Proof.
  induction gaps as [|g gs IH]; intros w Hlen Hin Htl.
  - simpl. unfold ret, span. simpl. rewrite !app_nil_r, Z.add_0_r.
    destruct w as [[key ts] now late tr]. reflexivity.
  - simpl in Hlen, Htl. rewrite span_cons in Hin.
    pose proof (span_nonneg gs) as Hnn.
    simpl calls. unfold bind at 1. unfold elapse at 1.
    unfold bind at 1. rewrite throttle_run. unfold throttled. simpl.
    rewrite prune_all
      by (eapply Forall_impl; [exact Hin|]; simpl; intros t Ht; lia).
    rewrite wait_for_below by lia.
    rewrite IH; simpl.
    + rewrite span_cons, <- !app_assoc, Z.add_assoc. reflexivity.
    + rewrite length_app. simpl. lia.
    + apply Forall_app. split.
      * eapply Forall_impl; [exact Hin|]. simpl. intros t Ht. lia.
      * apply Forall_singleton. lia.
    + destruct gs as [|g' gs']; [reflexivity|].
      change (span gs' < windowMs).
      rewrite span_cons in Htl. pose proof (span_nonneg gs'). lia.
Qed.

Lemma prune_sorted (now : Z) (l : list Z) :
  StronglySorted Z.le l -> StronglySorted Z.le (prune now l).
Proof.
  induction 1 as [|x l Hs IH Hx]; [constructor|].
  unfold prune in *. rewrite filter_cons. case_decide; [|exact IH].
  constructor; [exact IH|].
  rewrite Forall_forall in *. intros t Ht.
  apply list_elem_of_filter in Ht as [_ Ht]. now apply Hx.
Qed.

Lemma sorted_snoc (l : list Z) (x : Z) :
  StronglySorted Z.le l -> Forall (fun t => t <= x) l ->
  StronglySorted Z.le (l ++ [x]).
Proof.
  induction 1 as [|y l Hs IH Hy]; intros Hle; simpl.
  - repeat constructor.
  - apply Forall_cons in Hle as [Hyx Hle].
    constructor; [now apply IH|].
    apply Forall_app. split; [exact Hy|]. apply Forall_singleton. exact Hyx.
Qed.

Lemma ordered_elapse (w : World) (d : Z) :
  0 <= d -> ordered w -> ordered (elapse d w).2.
Proof.
  intros Hd [Hs Hle]. split; simpl; [exact Hs|].
  eapply Forall_impl; [exact Hle|]. simpl. intros t Ht. lia.
Qed.

Lemma ordered_throttled (w : World) : ordered w -> ordered (throttled w).
Proof.
  intros [Hs Hle]. unfold throttled.
  assert (Hk : Forall (fun t => t <= clock w)
                 (prune (clock w) (requestTimestamps (this w)))).
  { rewrite Forall_forall in *. intros t Ht.
    apply elem_of_prune in Ht as [Ht _]. now apply Hle. }
  destruct (wait_for _ _) as [d|]; split;
    cbn [this clock requestTimestamps];
    try pose proof (timer_ms_pos (Js.of_Z d)) as Hpos.
  - apply sorted_snoc; [now apply prune_sorted|].
    eapply Forall_impl; [exact Hk|]. simpl. intros t Ht. lia.
  - apply Forall_app. split; [|apply Forall_singleton; lia].
    eapply Forall_impl; [exact Hk|]. simpl. intros t Ht. lia.
  - apply sorted_snoc; [now apply prune_sorted|exact Hk].
  - apply Forall_app. split; [exact Hk|apply Forall_singleton; lia].
Qed.

Lemma ordered_calls (gaps : list nat) : forall w : World,
  ordered w -> ordered (calls gaps w).2.
Proof.
  induction gaps as [|g gs IH]; intros w Ho; [exact Ho|].
  simpl calls. unfold bind at 1. unfold elapse at 1.
  unfold bind at 1. rewrite throttle_run.
  apply IH, ordered_throttled.
  apply (ordered_elapse w (Z.of_nat g)); [lia|exact Ho].
Qed.

Lemma span_tail_le (gs : list nat) : span (tail gs) <= span gs.
Proof.
  destruct gs as [|g gs]; [reflexivity|].
  rewrite span_cons. simpl. lia.
Qed.

Lemma timeouts_app (site : Site) (tr1 tr2 : list Event) :
  timeouts site (tr1 ++ tr2) = timeouts site tr1 ++ timeouts site tr2.
Proof.
  apply omap_app.
Qed.

Lemma timeouts_pushes (site : Site) (ts : list Z) :
  timeouts site (EvPush <$> ts) = [].
Proof.
  induction ts as [|t ts IH]; [reflexivity|exact IH].
Qed.

(** The first call after the window has run out finds nothing to keep. *)
Lemma throttled_stale (w : World) :
  Forall (fun t => windowMs <= clock w - t) (requestTimestamps (this w)) ->
  throttled w =
  mkWorld (mkClient (secretKey (this w)) [clock w]) (clock w) (timers w)
          (trace w ++ [EvPush (clock w)]).
Proof.
  intros Hstale. unfold throttled. rewrite prune_none by exact Hstale.
  reflexivity.
Qed.

Lemma calls_sparse (gaps : list nat) : forall (w : World) (history : list Z),
  (forall now, clock w <= now ->
     prune now (requestTimestamps (this w)) = prune now history) ->
  sparse history (clock w) gaps ->
  exists w', calls gaps w = (Returned tt, w')
    /\ trace w' = trace w ++ (EvPush <$> issue_times (clock w) gaps)
    /\ clock w' = clock w + span gaps.
Proof.
  induction gaps as [|g gs IH]; intros w history Hlog Hsp.
  - exists w. simpl. rewrite app_nil_r. unfold span. simpl.
    repeat split; lia.
  - destruct Hsp as [Hfew Hsp].
    simpl calls. unfold bind at 1. unfold elapse at 1.
    unfold bind at 1. rewrite throttle_run. unfold throttled. simpl.
    rewrite Hlog by lia. rewrite wait_for_below by exact Hfew.
    match goal with |- context [calls gs ?w2] =>
      destruct (IH w2 (history ++ [clock w + Z.of_nat g]))
        as (w' & Hrun & Htr & Hclk)
    end.
    + simpl. intros now Hnow. unfold prune at 1 3. rewrite !filter_app.
      fold (prune now (prune (clock w + Z.of_nat g) history)).
      fold (prune now history). now rewrite prune_prune.
    + exact Hsp.
    + exists w'. rewrite Hrun, Htr, Hclk. simpl.
      rewrite span_cons, <- app_assoc. simpl. repeat split; lia.
Qed.

(** C1: each [throttle] call prunes the log to the timestamps less than one
    second old (the first of which is the oldest, the log of a client being
    in push order); with 25 or more left it suspends for
    1000 - (now - oldest) + 50 ms when that is positive, otherwise it does
    not suspend; it then pushes the current time.  (The timer is armed for
    that delay whenever the oldest timestamp is not in the future; a delay
    above the timer's maximum is armed for 1 ms.)  Hence up to 25 calls
    after a quiet second are pushed when issued, as are the calls of any
    run in which no call has 25 others in the second before it, and a 26th
    call issued within a second of the first of 25 is pushed 1050 ms after
    that first call or later. *)
Theorem throttle_sliding_window :
  (forall w : World,
     let now := clock w in
     let log := requestTimestamps (this w) in
     let kept := prune now log in
     (forall t, t ∈ kept <-> t ∈ log /\ now - t < 1000)
     /\ (StronglySorted Z.le log ->
         forall oldest rest, kept = oldest :: rest ->
         forall t, t ∈ kept -> oldest <= t)
     /\ (forall key start late gaps,
           w = (calls gaps (fresh key start late)).2 ->
           StronglySorted Z.le log)
     /\ exists w', throttle w = (Returned tt, w')
          /\ requestTimestamps (this w') = kept ++ [clock w']
          /\ ((25 <= length kept)%nat ->
              forall oldest rest, kept = oldest :: rest ->
              let d := (1000 - (now - oldest)) + 50 in
              (0 < d ->
               trace w' = trace w ++ [EvTimeout InThrottle (Js.Dec d 0);
                                      EvPush (clock w')]
               /\ clock w' = now + (if d <=? TIMEOUT_MAX then d else 1)
                             + Z.of_nat (hd 0%nat (timers w))
               /\ (oldest <= now ->
                   clock w' = now + d + Z.of_nat (hd 0%nat (timers w))))
              /\ (d <= 0 -> trace w' = trace w ++ [EvPush now] /\ clock w' = now))
          /\ ((length kept < 25)%nat ->
              trace w' = trace w ++ [EvPush now] /\ clock w' = now))
  /\ (forall (w : World) (gaps : list nat),
        Forall (fun t => 1000 <= clock w - t) (requestTimestamps (this w)) ->
        (length gaps <= 25)%nat ->
        exists w', calls gaps w = (Returned tt, w')
          /\ trace w' = trace w ++ (EvPush <$> issue_times (clock w) gaps)
          /\ clock w' = clock w + span gaps)
  /\ (forall (w : World) (gaps : list nat),
        sparse (requestTimestamps (this w)) (clock w) gaps ->
        exists w', calls gaps w = (Returned tt, w')
          /\ trace w' = trace w ++ (EvPush <$> issue_times (clock w) gaps)
          /\ clock w' = clock w + span gaps)
  /\ (forall (w : World) (g1 : nat) (gs : list nat) (g26 : nat),
        Forall (fun t => 1000 <= clock w - t) (requestTimestamps (this w)) ->
        length gs = 24%nat ->
        span gs + Z.of_nat g26 < 1000 ->
        let start := clock w + Z.of_nat g1 in
        let issued := start + span gs + Z.of_nat g26 in
        exists w25 w26,
          calls (g1 :: gs) w = (Returned tt, w25)
          /\ timeouts InThrottle (trace w25) = timeouts InThrottle (trace w)
          /\ (elapse (Z.of_nat g26) ;; throttle) w25 = (Returned tt, w26)
          /\ trace w26 = trace w25 ++
               [EvTimeout InThrottle (Js.Dec (1000 - (issued - start) + 50) 0);
                EvPush (clock w26)]
          /\ start + 1000 + 50 <= clock w26).
Proof.
  split; [|split; [|split]].
  - intros w now log kept. split; [|split; [|split]].
    + intros t. apply elem_of_prune.
    + intros Hs oldest rest Heq. now apply (prune_sorted_head now log oldest rest).
    + intros key start late gaps ->.
      apply (ordered_calls gaps (fresh key start late)).
      split; simpl; constructor.
    + exists (throttled w). split; [apply throttle_run|].
      unfold throttled. fold now log kept.
      split; [destruct (wait_for now kept); reflexivity|].
      split.
      * intros Hfull oldest rest Heq. rewrite Heq in *.
        rewrite wait_for_full by exact Hfull. unfold waitMs, windowMs.
        split; intros Hd.
        -- destruct (Z.ltb_spec 0 (1000 - (now - oldest) + 50)); [|lia].
           cbn [trace clock]. rewrite timer_ms_of_Z.
           assert (Hone : (1 <=? 1000 - (now - oldest) + 50) = true)
             by (apply Z.leb_le; lia).
           rewrite Hone. cbn [andb].
           split; [reflexivity|]. split; [reflexivity|]. intros Hpast.
           destruct (Z.leb_spec (1000 - (now - oldest) + 50) TIMEOUT_MAX);
             [reflexivity|unfold TIMEOUT_MAX in *; lia].
        -- destruct (Z.ltb_spec 0 (1000 - (now - oldest) + 50)); [lia|].
           simpl. split; reflexivity.
      * intros Hlt. rewrite wait_for_below by exact Hlt. split; reflexivity.
  - intros w gaps Hstale Hlen.
    destruct (calls_not_delayed gaps w) as (w' & Hrun & Htr & Hclk & _).
    + rewrite prune_none by exact Hstale. simpl. exact Hlen.
    + exists w'. auto.
  - intros w gaps Hsp. now apply (calls_sparse gaps w (requestTimestamps (this w))).
  - intros w g1 gs g26 Hstale Hlen Hspan start issued.
    pose proof (span_nonneg gs) as Hnn.
    pose proof (span_tail_le gs) as Htl.
    simpl calls. unfold bind at 1. unfold elapse at 1.
    unfold bind at 1. rewrite throttle_run.
    rewrite throttled_stale
      by (simpl; eapply Forall_impl; [exact Hstale|]; simpl;
          unfold windowMs; intros t Ht; lia).
    simpl. fold start.
    rewrite calls_within_window; simpl.
    2:{ rewrite Hlen. reflexivity. }
    2:{ apply Forall_singleton. unfold windowMs. lia. }
    2:{ unfold windowMs. lia. }
    eexists. eexists. split; [reflexivity|]. simpl.
    split.
    { rewrite <- app_assoc, timeouts_app. simpl.
      change (EvPush start :: (EvPush <$> issue_times start gs))
        with (EvPush <$> (start :: issue_times start gs)).
      rewrite timeouts_pushes. apply app_nil_r. }
    unfold bind at 1. unfold elapse at 1. rewrite throttle_run.
    split; [reflexivity|].
    unfold throttled. simpl. fold issued.
    rewrite prune_all.
    2:{ constructor; [unfold windowMs, issued; lia|].
        eapply Forall_impl; [apply issue_times_ge|]. simpl.
        unfold windowMs, issued. intros t Ht. lia. }
    rewrite wait_for_full
      by (simpl; rewrite issue_times_length, Hlen; reflexivity).
    unfold waitMs, windowMs.
    destruct (Z.ltb_spec 0 (1000 - (issued - start) + 50));
      [|unfold issued in *; lia].
    cbn [trace clock]. split; [reflexivity|].
    rewrite timer_ms_within by (unfold TIMEOUT_MAX, issued in *; lia).
    unfold issued in *. lia.
Qed.

Lemma throttle_sliding_window_witness :
  (exists w',
     throttle (mkWorld (mkClient "sk_test" (replicate 25 0)) 10 [3%nat] [])
     = (Returned tt, w')
     /\ trace w' = [EvTimeout InThrottle (Js.Dec 1040 0); EvPush (clock w')]
     /\ clock w' = 1053)
  /\ (exists w',
        calls (replicate 25 10%nat) (fresh "sk_test" 0 [3%nat]) = (Returned tt, w')
        /\ trace w' = EvPush <$> issue_times 0 (replicate 25 10%nat)
        /\ clock w' = 250)
  /\ (exists w25 w26,
        calls (5%nat :: replicate 24 10%nat) (fresh "sk_test" 0 [3%nat])
        = (Returned tt, w25)
        /\ timeouts InThrottle (trace w25) = []
        /\ (elapse 10 ;; throttle) w25 = (Returned tt, w26)
        /\ trace w26 = trace w25 ++
             [EvTimeout InThrottle (Js.Dec 800 0); EvPush (clock w26)]
        /\ 1055 <= clock w26).
Proof.
  pose proof throttle_sliding_window as (Hstep & Hfew & _ & Hnext).
  split; [|split].
  - destruct (Hstep (mkWorld (mkClient "sk_test" (replicate 25 0)) 10 [3%nat] []))
      as (_ & _ & _ & w' & Hrun & _ & Hfull & _).
    exists w'. split; [exact Hrun|].
    destruct (Hfull ltac:(vm_compute; lia) 0 (replicate 24 0) eq_refl)
      as [Hpos _].
    destruct (Hpos eq_refl) as (Htr & _ & Hclk).
    split; [exact Htr|]. apply Hclk. vm_compute. discriminate.
  - apply (Hfew (fresh "sk_test" 0 [3%nat]) (replicate 25 10%nat)).
    + constructor.
    + vm_compute. lia.
  - apply (Hnext (fresh "sk_test" 0 [3%nat]) 5%nat (replicate 24 10%nat) 10%nat).
    + constructor.
    + reflexivity.
    + vm_compute. reflexivity.
Defined.

(** ** The size of the log *)

Lemma prune_within (now : Z) (l : list Z) :
  Forall (fun t => now - t < windowMs) (prune now l).
Proof.
  apply Forall_forall. intros t Ht. now apply elem_of_prune in Ht.
Qed.

Lemma bounded_prune (w : World) (now : Z) :
  bounded w -> clock w <= now ->
  (length (prune now (requestTimestamps (this w))) <= maxRequests)%nat.
Proof.
  intros [Hle|(oldest & rest & Heq & Hlen & Hold)] Hnow.
  - pose proof (prune_length now (requestTimestamps (this w))). lia.
  - rewrite Heq. unfold prune. rewrite filter_cons_False by lia.
    pose proof (prune_length now rest). unfold prune in *. lia.
Qed.

Lemma wait_for_none_iff (now : Z) (l : list Z) :
  wait_for now (prune now l) = None
  <-> (length (prune now l) < maxRequests)%nat.
Proof.
  split; [|apply wait_for_below].
  intros Hnone. unfold wait_for in Hnone.
  destruct (Nat.leb_spec maxRequests (length (prune now l))) as [Hle|Hlt];
    [|exact Hlt].
  pose proof (prune_within now l) as Hin.
  destruct (prune now l) as [|oldest rest]; [simpl in Hle; unfold maxRequests in Hle; lia|].
  apply Forall_cons in Hin as [Hin _]. unfold waitMs in Hnone.
  destruct (Z.ltb_spec 0 (windowMs - (now - oldest) + 50)); [discriminate|lia].
Qed.

Lemma bounded_elapse (w : World) (d : Z) :
  0 <= d -> bounded w -> bounded (elapse d w).2.
Proof.
  intros Hd [Hle|(oldest & rest & Heq & Hlen & Hold)]; [left; exact Hle|].
  right. exists oldest, rest. simpl. repeat split; [exact Heq|exact Hlen|lia].
Qed.

Lemma bounded_throttled (w : World) :
  Forall (fun t => t <= clock w) (requestTimestamps (this w)) ->
  bounded w -> bounded (throttled w).
Proof.
  intros Hpast Hb.
  assert (Hkept : Forall (fun t => t <= clock w)
                    (prune (clock w) (requestTimestamps (this w)))).
  { rewrite Forall_forall in *. intros t Ht.
    apply elem_of_prune in Ht as [Ht _]. now apply Hpast. }
  pose proof (bounded_prune w (clock w) Hb (Z.le_refl _)) as Hk.
  pose proof (prune_within (clock w) (requestTimestamps (this w))) as Hin.
  unfold throttled, wait_for.
  destruct (Nat.leb_spec maxRequests
              (length (prune (clock w) (requestTimestamps (this w)))))
    as [Hfull|Hfree].
  - destruct (prune (clock w) (requestTimestamps (this w))) as [|oldest rest];
      [simpl in Hfull; unfold maxRequests in Hfull; lia|].
    apply Forall_cons in Hin as [Hin _]. apply Forall_cons in Hkept as [Hold _].
    unfold waitMs.
    destruct (Z.ltb_spec 0 (windowMs - (clock w - oldest) + 50)); [|lia].
    right. exists oldest. eexists. simpl. split; [reflexivity|].
    rewrite length_app. unfold windowMs in *.
    rewrite timer_ms_within by (unfold TIMEOUT_MAX; lia).
    simpl in *. split; lia.
  - left. simpl. rewrite length_app. simpl. lia.
Qed.

Lemma bounded_calls (gaps : list nat) : forall w : World,
  ordered w -> bounded w -> bounded (calls gaps w).2.
Proof.
  induction gaps as [|g gs IH]; intros w Ho Hb; [exact Hb|].
  simpl calls. unfold bind at 1. unfold elapse at 1.
  unfold bind at 1. rewrite throttle_run.
  assert (Ho1 : ordered (elapse (Z.of_nat g) w).2)
    by (apply ordered_elapse; [lia|exact Ho]).
  assert (Hb1 : bounded (elapse (Z.of_nat g) w).2)
    by (apply bounded_elapse; [lia|exact Hb]).
  apply IH; [now apply ordered_throttled|].
  apply bounded_throttled; [apply Ho1|exact Hb1].
Qed.

(** C6: once a full second has gone by since the last push, the next call
    finds an empty log after pruning and is not held back; the pruning
    step leaves no timestamp that is a second old or older, a call goes on
    without a wait exactly when fewer than 25 timestamps are left, and in
    every run of calls on a new client the pruned log never holds more
    than 25. *)
Theorem log_window_invariant :
  (forall (w : World) (last : Z),
     Forall (fun t => t <= last) (requestTimestamps (this w)) ->
     1000 <= clock w - last ->
     prune (clock w) (requestTimestamps (this w)) = []
     /\ exists w', throttle w = (Returned tt, w')
          /\ trace w' = trace w ++ [EvPush (clock w)]
          /\ clock w' = clock w
          /\ requestTimestamps (this w') = [clock w])
  /\ (forall (now : Z) (log : list Z),
        Forall (fun t => now - t < 1000) (prune now log))
  /\ (forall (now : Z) (log : list Z),
        wait_for now (prune now log) = None
        <-> (length (prune now log) < 25)%nat)
  /\ (forall (key : string) (start : Z) (late gaps : list nat) (g : nat),
        let w := (calls gaps (fresh key start late)).2 in
        (length (prune (clock w + Z.of_nat g) (requestTimestamps (this w)))
         <= 25)%nat).
Proof.
  split; [|split; [|split]].
  - intros w last Hlast Hquiet.
    assert (Hstale : Forall (fun t => windowMs <= clock w - t)
                       (requestTimestamps (this w))).
    { eapply Forall_impl; [exact Hlast|]. simpl. unfold windowMs.
      intros t Ht. lia. }
    split; [now apply prune_none|].
    exists (throttled w). split; [apply throttle_run|].
    rewrite throttled_stale by exact Hstale. simpl. auto.
  - intros now log. apply prune_within.
  - intros now log. apply wait_for_none_iff.
  - intros key start late gaps g w.
    apply bounded_prune; [|lia].
    apply bounded_calls.
    + split; simpl; constructor.
    + left. simpl. unfold maxRequests. lia.
Qed.

Lemma log_window_invariant_witness :
  prune 5000 [0; 100; 3500] = []
  /\ exists w',
       throttle (mkWorld (mkClient "sk_test" [0; 100; 3500]) 5000 [] [])
       = (Returned tt, w')
       /\ trace w' = [EvPush 5000]
       /\ clock w' = 5000
       /\ requestTimestamps (this w') = [5000].
Proof.
  destruct log_window_invariant as (Hquiet & _).
  apply (Hquiet (mkWorld (mkClient "sk_test" [0; 100; 3500]) 5000 [] []) 3500).
  - simpl. repeat constructor; lia.
  - simpl. lia.
Defined.

(** ** One physical attempt and the response mapping *)

Lemma is_rejection_inv (x : Exchange) :
  is_rejection x -> exists r, reply x = Responded r /\ res_status r = 429.
Proof.
  unfold is_rejection, rejected. destruct (reply x) as [r|message];
    [|discriminate].
  intros H%Z.eqb_eq. exists r. auto.
Qed.

Lemma settle_run (r : Response) (w : World) :
  settle r w =
  (outcome_of r,
   mkWorld (this w) (clock w) (timers w) (trace w ++ reads_of r)).
Proof.
  unfold settle, outcome_of, reads_of. run_js.
  destruct (negb (res_ok r)); [reflexivity|].
  destruct (res_status r =? 204).
  - rewrite app_nil_r. destruct w as [c t l tr]. reflexivity.
  - run_js. destruct (res_json r); reflexivity.
Qed.

Lemma attempt_run (x : option Exchange) (method path : string)
  (params : option Params) (w : World) :
  attempt x method path params w =
  let call := build (secretKey (this w)) method path params in
  match x with
  | Some x =>
      (match reply x with
       | Responded r => Returned r
       | Failed message => Thrown (TypeError message)
       end,
       fetched (throttled w) call (Z.of_nat (latency x)))
  | None => (Pending, fetched (throttled w) call 0)
  end.
Proof.
  unfold attempt. unfold bind at 1. rewrite throttle_run.
  assert (Hkey : secretKey (this (throttled w)) = secretKey (this w))
    by (unfold throttled; destruct (wait_for _ _); reflexivity).
  unfold bind at 1, get_secretKey. rewrite Hkey.
  destruct (build _ method path params) as [url options] eqn:Hb. simpl.
  unfold fetched, fetch. run_js.
  destruct x as [x|].
  - destruct (reply x); reflexivity.
  - rewrite Z.add_0_r. reflexivity.
Qed.

Lemma request_cons (x : Exchange) (net : list Exchange) (method path : string)
  (params : option Params) (w : World) :
  request (x :: net) method path params w =
  let w1 := fetched (throttled w)
              (build (secretKey (this w)) method path params)
              (Z.of_nat (latency x)) in
  match reply x with
  | Responded r =>
      if res_status r =? 429
      then request net method path params
             (sleep InRetry (retry_delay (res_retry_after r)) w1).2
      else (outcome_of r, read_body w1 r)
  | Failed message => (Thrown (TypeError message), w1)
  end.
Proof.
  simpl request. unfold bind at 1. rewrite attempt_run. simpl.
  destruct (reply x) as [r|message]; [|reflexivity].
  destruct (res_status r =? 429).
  - unfold bind at 1. reflexivity.
  - apply settle_run.
Qed.

Lemma request_nil (method path : string) (params : option Params) (w : World) :
  request [] method path params w =
  (Pending,
   fetched (throttled w) (build (secretKey (this w)) method path params) 0).
Proof.
  simpl request. unfold bind at 1. rewrite attempt_run. reflexivity.
Qed.

Lemma throttled_key (w : World) :
  secretKey (this (throttled w)) = secretKey (this w).
Proof.
  unfold throttled. destruct (wait_for _ _); reflexivity.
Qed.

Lemma throttled_clock (w : World) : clock w <= clock (throttled w).
Proof.
  unfold throttled. destruct (wait_for _ _) as [d|]; simpl; [|lia].
  pose proof (timer_ms_pos (Js.of_Z d)). lia.
Qed.

(** What one [throttle] call adds to the trace: a wait at most, then the
    push. *)
Lemma throttled_trace (w : World) :
  exists evs, trace (throttled w) = trace w ++ evs
    /\ fetches evs = [] /\ length (pushes evs) = 1%nat
    /\ timeouts InRetry evs = [] /\ body_reads evs = [].
Proof.
  unfold throttled. destruct (wait_for _ _); eexists; split;
    try reflexivity; simpl; auto.
Qed.

Lemma timer_ms_nonneg (d : Js.jsnum) : 0 <= timer_ms d.
Proof.
  pose proof (timer_ms_pos d). lia.
Qed.

Lemma fetches_app (tr1 tr2 : list Event) :
  fetches (tr1 ++ tr2) = fetches tr1 ++ fetches tr2.
Proof.
  apply omap_app.
Qed.

Lemma pushes_app (tr1 tr2 : list Event) :
  pushes (tr1 ++ tr2) = pushes tr1 ++ pushes tr2.
Proof.
  apply omap_app.
Qed.

Lemma body_reads_app (tr1 tr2 : list Event) :
  body_reads (tr1 ++ tr2) = body_reads tr1 ++ body_reads tr2.
Proof.
  apply omap_app.
Qed.

(** A run of [request] through any number of 429 responses up to the
    exchange that ends it. *)
Lemma request_through_rejections (rejs : list Exchange) :
  forall (final : Exchange) (rest : list Exchange) (method path : string)
         (params : option Params) (w : World),
  Forall is_rejection rejs -> rejected final = false ->
  exists w' evs,
    request (rejs ++ final :: rest) method path params w = (result_of final, w')
    /\ trace w' = trace w ++ evs
    /\ fetches evs = replicate (S (length rejs))
                       (build (secretKey (this w)) method path params)
    /\ length (pushes evs) = S (length rejs)
    /\ timeouts InRetry evs = (fun x => retry_delay (retry_header x)) <$> rejs
    /\ secretKey (this w') = secretKey (this w)
    /\ clock w + total_wait ((fun x => retry_delay (retry_header x)) <$> rejs)
       <= clock w'.
Proof.
  induction rejs as [|x rejs IH]; intros final rest method path params w Hrej Hfin.
  - simpl app. rewrite request_cons. simpl.
    destruct (throttled_trace w) as (evs & Htr & Hf & Hp & Ht & Hb).
    pose proof (throttled_clock w) as Hclk. pose proof (throttled_key w) as Hkey.
    unfold result_of. destruct (reply final) as [r|message] eqn:Hreply.
    + destruct (Z.eqb_spec (res_status r) 429) as [H429|_].
      { unfold rejected in Hfin. rewrite Hreply in Hfin.
        apply Z.eqb_neq in Hfin. contradiction. }
      eexists. exists (evs ++ [EvFetch (build (secretKey (this w)) method path params).1
                        (build (secretKey (this w)) method path params).2]
                    ++ reads_of r).
      split; [reflexivity|]. simpl. rewrite Htr, <- !app_assoc.
      split; [reflexivity|].
      rewrite fetches_app, pushes_app, timeouts_app, Hf, Ht, length_app, Hp.
      unfold reads_of.
      destruct (build _ _ _ _); destruct (negb (res_ok r));
        [|destruct (res_status r =? 204)]; simpl; repeat split; auto; lia.
    + eexists. exists (evs ++ [EvFetch (build (secretKey (this w)) method path params).1
                        (build (secretKey (this w)) method path params).2]).
      split; [reflexivity|]. simpl. rewrite Htr, <- !app_assoc.
      split; [reflexivity|].
      rewrite fetches_app, pushes_app, timeouts_app, Hf, Ht, length_app, Hp.
      destruct (build _ _ _ _); simpl; repeat split; auto; lia.
  - apply Forall_cons in Hrej as [Hx Hrej].
    apply is_rejection_inv in Hx as (r & Hreply & H429).
    simpl app. rewrite request_cons. simpl. rewrite Hreply.
    rewrite H429. simpl.
    destruct (throttled_trace w) as (evs & Htr & Hf & Hp & Ht & Hb).
    pose proof (throttled_clock w) as Hclk. pose proof (throttled_key w) as Hkey.
    match goal with |- context [request _ _ _ _ ?w1] =>
      destruct (IH final rest method path params w1 Hrej Hfin)
        as (w' & evs' & Hrun & Htr' & Hf' & Hp' & Ht' & Hkey' & Hclk')
    end.
    simpl in Htr', Hf', Hkey', Hclk'. rewrite Hkey in Hf', Hkey'.
    exists w', (evs ++ [EvFetch (build (secretKey (this w)) method path params).1
                          (build (secretKey (this w)) method path params).2;
                        EvTimeout InRetry (retry_delay (res_retry_after r))]
                    ++ evs').
    split; [exact Hrun|].
    split; [rewrite Htr', Htr, <- !app_assoc; reflexivity|].
    rewrite !fetches_app, !pushes_app, !timeouts_app, !length_app, Hf, Hp, Ht,
      Hf', Hp', Ht'.
    assert (Hh : retry_header x = res_retry_after r)
      by (unfold retry_header; rewrite Hreply; reflexivity).
    rewrite !Hh.
    pose proof (timer_ms_nonneg (retry_delay (res_retry_after r))) as Hnn.
    destruct (build (secretKey (this w)) method path params) as [url options].
    simpl.
    change (list_fmap Exchange Js.jsnum)
      with (@fmap list list_fmap Exchange Js.jsnum).
    repeat split; auto; lia.
Qed.

(** Whatever the network does, [request] leaves the key alone and every
    call it makes is the one built from its arguments. *)
Lemma request_any (net : list Exchange) (method path : string)
  (params : option Params) : forall w : World,
  secretKey (this (request net method path params w).2) = secretKey (this w)
  /\ exists evs,
       trace (request net method path params w).2 = trace w ++ evs
       /\ Forall (fun call => call = build (secretKey (this w)) method path params)
                 (fetches evs).
Proof.
  induction net as [|x net IH]; intros w.
  - rewrite request_nil. simpl. split; [apply throttled_key|].
    destruct (throttled_trace w) as (evs & Htr & Hf & _).
    eexists. rewrite Htr, <- app_assoc. split; [reflexivity|].
    rewrite fetches_app, Hf. simpl.
    destruct (build _ _ _ _). repeat constructor.
  - rewrite request_cons. simpl.
    destruct (throttled_trace w) as (evs & Htr & Hf & _).
    pose proof (throttled_key w) as Hkey.
    destruct (reply x) as [r|message].
    + destruct (res_status r =? 429).
      * match goal with |- context [request net _ _ _ ?w1] =>
          destruct (IH w1) as (Hk & evs' & Htr' & Hf')
        end.
        simpl in Hk, Htr', Hf'. rewrite Hkey in Hk, Hf'.
        split; [exact Hk|].
        eexists. rewrite Htr', Htr, <- !app_assoc. split; [reflexivity|].
        rewrite !fetches_app, Hf. simpl.
        destruct (build _ _ _ _). constructor; [reflexivity|exact Hf'].
      * simpl. split; [exact Hkey|].
        eexists. rewrite Htr, <- !app_assoc. split; [reflexivity|].
        rewrite !fetches_app, Hf. simpl. unfold reads_of.
        destruct (build _ _ _ _), (negb (res_ok r)), (res_status r =? 204);
          repeat constructor.
    + simpl. split; [exact Hkey|].
      eexists. rewrite Htr, <- !app_assoc. split; [reflexivity|].
      rewrite !fetches_app, Hf. simpl.
      destruct (build _ _ _ _). repeat constructor.
Qed.

(** ** [Number] on decimal numerals *)



















(** ** Failures and successes *)

Lemma append_assoc (a b c : string) : (a +:+ b) +:+ c = a +:+ b +:+ c.
Proof.
  induction a as [|x a IH]; [reflexivity|].
  change (String x ((a +:+ b) +:+ c) = String x (a +:+ b +:+ c)).
  now rewrite IH.
Qed.

Lemma append_nil_r (a : string) : a +:+ "" = a.
Proof.
  induction a as [|x a IH]; [reflexivity|].
  change (String x (a +:+ "") = String x a). now rewrite IH.
Qed.

Lemma Contains_middle (a s b : string) : Contains (a +:+ s +:+ b) s.
Proof.
  exists a, b. reflexivity.
Qed.

Lemma error_message_contains (r : Response) (body : string) :
  Contains (error_message r body) (Js.String_of_number (res_status r))
  /\ Contains (error_message r body) (res_statusText r)
  /\ Contains (error_message r body) body.
Proof.
  unfold error_message. split; [|split].
  - apply Contains_middle.
  - exists ("Stripe API error (" +:+ Js.String_of_number (res_status r) +:+ " ").
    exists ("): " +:+ body).
    now rewrite !append_assoc.
  - exists ("Stripe API error (" +:+ Js.String_of_number (res_status r) +:+ " "
            +:+ res_statusText r +:+ "): ").
    exists "".
    now rewrite append_nil_r, !append_assoc.
Qed.

(** C3: a response that is neither 2xx nor 429 makes [request] throw an
    error whose message holds the status, the status text and the body
    text (empty when the body cannot be read), after a single call; a 204
    returns the empty object without reading the body; any other 2xx
    returns the decoded JSON body.  A 404 whose body is the error object
    [no_such_customer] throws a message holding 404 and that body. *)
Theorem response_mapping (r : Response) (lat : nat) (rest : list Exchange)
  (method path : string) (params : option Params) (w : World) :
  res_status r <> 429 ->
  (exists w' evs c,
     request (mkExchange lat (Responded r) :: rest) method path params w = (c, w')
     /\ trace w' = trace w ++ evs
     /\ fetches evs = [build (secretKey (this w)) method path params]
     /\ timeouts InRetry evs = []
     /\ (res_status r < 200 \/ 299 < res_status r ->
         exists message,
           c = Thrown (Error message)
           /\ message = "Stripe API error (" +:+ Js.String_of_number (res_status r)
                          +:+ " " +:+ res_statusText r +:+ "): "
                          +:+ default "" (res_text r)
           /\ Contains message (Js.String_of_number (res_status r))
           /\ Contains message (res_statusText r)
           /\ Contains message (default "" (res_text r))
           /\ body_reads evs = [EvText])
     /\ (res_status r = 204 -> c = Returned (JObj []) /\ body_reads evs = [])
     /\ (200 <= res_status r <= 299 -> res_status r <> 204 ->
         body_reads evs = [EvJson]
         /\ c = match res_json r with
                | Some v => Returned v
                | None => Thrown SyntaxError
                end))
  /\ (exists w' message,
        request [mkExchange lat (Responded not_found)] method path params w
        = (Thrown (Error message), w')
        /\ Contains message "404" /\ Contains message no_such_customer).
Proof.
  intros H429. split.
  - rewrite request_cons. simpl.
    destruct (Z.eqb_spec (res_status r) 429) as [|_]; [contradiction|].
    destruct (throttled_trace w) as (evs & Htr & Hf & Hp & Ht & Hb).
    eexists. exists (evs ++ [EvFetch (build (secretKey (this w)) method path params).1
                          (build (secretKey (this w)) method path params).2]
                  ++ reads_of r), (outcome_of r).
    split; [reflexivity|]. simpl. rewrite Htr, <- !app_assoc.
    split; [reflexivity|].
    rewrite fetches_app, timeouts_app, body_reads_app, Hf, Ht, Hb.
    unfold outcome_of, reads_of.
    destruct (build (secretKey (this w)) method path params) as [url options].
    split; [|split; [|split; [|split]]].
    + destruct (negb (res_ok r)); [|destruct (res_status r =? 204)]; reflexivity.
    + destruct (negb (res_ok r)); [|destruct (res_status r =? 204)]; reflexivity.
    + intros Hout.
      assert (Hok : res_ok r = false).
      { unfold res_ok. destruct (Z.leb_spec 200 (res_status r)),
          (Z.leb_spec (res_status r) 299); simpl; try reflexivity; lia. }
      rewrite Hok. simpl. eexists. split; [reflexivity|].
      split; [reflexivity|].
      destruct (error_message_contains r (default "" (res_text r)))
        as (H1 & H2 & H3).
      auto.
    + intros H204. unfold res_ok. rewrite H204. simpl. auto.
    + intros Hin H204'.
      assert (Hok : res_ok r = true).
      { unfold res_ok. destruct (Z.leb_spec 200 (res_status r)),
          (Z.leb_spec (res_status r) 299); simpl; try reflexivity; lia. }
      rewrite Hok. simpl.
      destruct (Z.eqb_spec (res_status r) 204) as [|_]; [contradiction|].
      auto.
  - rewrite request_cons. simpl. eexists. eexists. split; [reflexivity|].
    split.
    + exists "Stripe API error (". exists (" Not Found): " +:+ no_such_customer).
      reflexivity.
    + exists "Stripe API error (404 Not Found): ". exists "". reflexivity.
Qed.

Lemma response_mapping_witness :
  exists w' message,
    request [mkExchange 7 (Responded not_found)] "GET" "/customers/cus_0" None
            (fresh "sk_test" 0 [])
    = (Thrown (Error message), w')
    /\ Contains message "404" /\ Contains message no_such_customer.
Proof.
  destruct (response_mapping not_found 7 [] "GET" "/customers/cus_0" None
              (fresh "sk_test" 0 [])) as (_ & H).
  - simpl. lia.
  - exact H.
Defined.

(** ** The request builder *)

Lemma list_ascii_append (a b : string) :
  list_ascii_of_string (a +:+ b)
  = list_ascii_of_string a ++ list_ascii_of_string b.
Proof.
  induction a as [|x a IH]; [reflexivity|].
  change (x :: list_ascii_of_string (a +:+ b)
          = x :: (list_ascii_of_string a ++ list_ascii_of_string b)).
  now rewrite IH.
Qed.

Lemma encode_byte_safe_b (c : ascii) :
  forallb url_safe (list_ascii_of_string (Url.encode_byte c)) = true.
Proof.
  destruct c as [b0 b1 b2 b3 b4 b5 b6 b7].
  destruct b0, b1, b2, b3, b4, b5, b6, b7; vm_compute; reflexivity.
Qed.

Lemma encode_byte_safe (c : ascii) :
  Forall (fun x => url_safe x = true) (list_ascii_of_string (Url.encode_byte c)).
Proof.
  apply List.Forall_forall. apply forallb_forall. apply encode_byte_safe_b.
Qed.

Lemma encode_safe (s : string) :
  Forall (fun x => url_safe x = true) (list_ascii_of_string (Url.encode s)).
Proof.
  induction s as [|c s IH]; [constructor|].
  change (Url.encode (String c s)) with (Url.encode_byte c +:+ Url.encode s).
  rewrite list_ascii_append. apply Forall_app. split; [apply encode_byte_safe|exact IH].
Qed.

Lemma elem_of_defined_entries (params : Params) (k v : string) :
  (k, v) ∈ defined_entries params <-> (k, Some v) ∈ params.
Proof.
  unfold defined_entries. rewrite list_elem_of_omap. split.
  - intros ([k' [v'|]] & Hin & Heq); simpl in Heq; [|discriminate].
    injection Heq as -> ->. exact Hin.
  - intros Hin. exists (k, Some v). auto.
Qed.

(** C4: the builder drops the parameters whose value is undefined and
    keeps the others in order; for GET and DELETE it appends them to the
    path as a percent-encoded query string, with nothing appended when
    none is left, and sends no body; for POST it sends them as the body
    with Content-Type application/x-www-form-urlencoded; structured fields
    travel as flat bracket-notation keys.  Every call an operation makes is
    the one built from its verb, path and parameters. *)
Theorem request_builder (key method path : string) (params : Params) :
  let pairs := defined_entries params in
  let auth := ("Authorization", "Bearer " +:+ key) in
  (forall k v, (k, v) ∈ pairs <-> (k, Some v) ∈ params)
  /\ (forall k rest, defined_entries ((k, None) :: rest) = defined_entries rest)
  /\ (forall k v rest,
        defined_entries ((k, Some v) :: rest) = (k, v) :: defined_entries rest)
  /\ build key method path (Some params)
     = (if is_read_verb method
        then (match pairs with
              | [] => BASE_URL +:+ path
              | _ :: _ => BASE_URL +:+ path +:+ "?" +:+ Url.toString pairs
              end,
              mkInit method [auth] None)
        else (BASE_URL +:+ path,
              mkInit method
                [auth; ("Content-Type", "application/x-www-form-urlencoded")]
                (Some (Url.toString pairs))))
  /\ (is_read_verb "GET" = true /\ is_read_verb "DELETE" = true
      /\ is_read_verb "POST" = false)
  /\ (Url.toString [] = ""
      /\ (forall k v, Url.toString [(k, v)] = Url.encode k +:+ "=" +:+ Url.encode v)
      /\ (forall k v kv rest,
            Url.toString ((k, v) :: kv :: rest)
            = (Url.encode k +:+ "=" +:+ Url.encode v) +:+ "&"
                +:+ Url.toString (kv :: rest))
      /\ (forall s, Forall (fun c => url_safe c = true)
                      (list_ascii_of_string (Url.encode s))))
  /\ (forall productId unitAmount currency,
        parameters (createPrice productId unitAmount currency (Some "month"))
        = Some [("product", Some productId);
                ("unit_amount", Some (Js.String_of_number unitAmount));
                ("currency", Some currency);
                ("recurring[interval]", Some "month")])
  /\ (forall (net : list Exchange) (p : PendingRequest) (w : World),
        exists evs,
          trace (perform net p w).2 = trace w ++ evs
          /\ Forall (fun call => call = wire (secretKey (this w)) p)
                    (fetches evs))
  /\ (forall customerId priceId,
        wire key (createSubscription customerId priceId)
        = (BASE_URL +:+ "/subscriptions",
           mkInit "POST"
             [auth; ("Content-Type", "application/x-www-form-urlencoded")]
             (Some (("customer=" +:+ Url.encode customerId) +:+ "&"
                    +:+ "items%5B0%5D%5Bprice%5D=" +:+ Url.encode priceId)))).
Proof.
  intros pairs auth. repeat split.
  - now apply elem_of_defined_entries.
  - now apply elem_of_defined_entries.
  - unfold build. fold pairs. destruct (is_read_verb method); [|reflexivity].
    destruct pairs; reflexivity.
  - apply encode_safe.
  - intros net p w. unfold perform, wire.
    edestruct request_any as (_ & evs & Htr & Hf).
    exists evs. split; [exact Htr|exact Hf].
Qed.

(** ** Typed arguments *)




(** C10: [createPrice] treats an empty recurring interval like a missing
    one and sends no [recurring[interval]] key, while the filter of
    [request] drops undefined values only, so that [createCustomer] with an
    empty email sends [email=]. *)
Theorem empty_interval_is_omitted :
  (forall productId unitAmount currency,
     createPrice productId unitAmount currency (Some "")
     = createPrice productId unitAmount currency None)
  /\ (forall productId unitAmount currency,
        sent_pairs (createPrice productId unitAmount currency (Some ""))
        = [("product", productId);
           ("unit_amount", Js.String_of_number unitAmount);
           ("currency", currency)])
  /\ (forall productId unitAmount currency c interval,
        sent_pairs (createPrice productId unitAmount currency
                      (Some (String c interval)))
        = [("product", productId);
           ("unit_amount", Js.String_of_number unitAmount);
           ("currency", currency);
           ("recurring[interval]", String c interval)])
  /\ (forall k rest, defined_entries ((k, Some "") :: rest)
                     = (k, "") :: defined_entries rest)
  /\ (forall key,
        wire key (createCustomer (Some "") None None None)
        = (BASE_URL +:+ "/customers",
           mkInit "POST"
             [("Authorization", "Bearer " +:+ key);
              ("Content-Type", "application/x-www-form-urlencoded")]
             (Some "email="))).
Proof.
  split; [|split; [|split; [|split]]]; intros; reflexivity.
Qed.

(** ** The Retry-After header *)

(** C9, as the code has it: a Retry-After value that is present and not
    empty is passed to [Number] and the default is not used; when the
    result is [NaN], as for an HTTP date, so is the delay given to the
    timer, which is then armed for 1 ms, the shortest time a timer runs.
    The 2-second default is used when the header is absent or empty. *)
Theorem retry_after_not_numeric (h : string) :
  h <> "" ->
  waitSec (Some h) = Js.Number h
  /\ (Js.Number h = Js.NaN ->
      retry_delay (Some h) = Js.NaN
      /\ timer_ms (retry_delay (Some h)) = 1
      /\ forall w, clock (sleep InRetry (retry_delay (Some h)) w).2
                   = clock w + 1 + Z.of_nat (hd 0%nat (timers w)))
  /\ Js.Number "Wed, 21 Oct 2015 07:28:00 GMT" = Js.NaN
  /\ waitSec None = Js.Dec 2 0
  /\ waitSec (Some "") = Js.Dec 2 0.
Proof.
  intros Hne.
  assert (Hw : waitSec (Some h) = Js.Number h)
    by (destruct h; [congruence|reflexivity]).
  split; [exact Hw|]. split; [|repeat split].
  intros Hnan. unfold retry_delay. rewrite Hw, Hnan.
  split; [reflexivity|]. split; [reflexivity|].
  intros w. reflexivity.
Qed.

Lemma retry_after_not_numeric_witness :
  waitSec (Some "Wed, 21 Oct 2015 07:28:00 GMT") = Js.NaN
  /\ timer_ms (retry_delay (Some "Wed, 21 Oct 2015 07:28:00 GMT")) = 1.
Proof.
  destruct (retry_after_not_numeric "Wed, 21 Oct 2015 07:28:00 GMT")
    as (Hw & Hnan & _).
  - discriminate.
  - split; [exact Hw|]. apply Hnan. reflexivity.
Defined.

(** Counterexample to C9 as stated: a Retry-After header that is present
    with an empty value is not a decimal numeral, yet the wait is the
    2-second default and not [NaN]; and the hexadecimal value [0x10] is not
    a decimal numeral either, yet gives a wait of 16 seconds. *)
Lemma retry_after_empty_uses_default :
  waitSec (Some "") = Js.Dec 2 0
  /\ waitSec (Some "") <> Js.NaN
  /\ retry_delay (Some "") = Js.Dec 2000 0
  /\ waitSec (Some "0x10") = Js.Dec 16 0.
Proof.
  repeat split; discriminate.
Qed.

(** ** The credential *)

Lemma build_authorization (key method path : string) (params : option Params) :
  ("Authorization", "Bearer " +:+ key)
    ∈ init_headers (build key method path params).2.
Proof.
  unfold build. destruct params as [p|]; [|simpl; set_solver].
  destruct (is_read_verb method); simpl; set_solver.
Qed.

Lemma calls_key (gaps : list nat) : forall w : World,
  secretKey (this (calls gaps w).2) = secretKey (this w).
Proof.
  induction gaps as [|g gs IH]; intros w; [reflexivity|].
  simpl calls. unfold bind at 1. unfold elapse at 1.
  unfold bind at 1. rewrite throttle_run. rewrite IH, throttled_key.
  reflexivity.
Qed.

(** C7: the constructor takes the key from STRIPE_SECRET_KEY and from
    nowhere else, and throws when the variable is not set; the key of a
    constructed client is the value the variable had, no request or
    throttle call changes it, and every call handed to [fetch], whatever
    the verb, carries [Authorization: Bearer <key>]. *)
Theorem credential_is_fixed (env : gmap string string) (c : StripeClient) :
  constructor env = Returned c ->
  env !! "STRIPE_SECRET_KEY" = Some (secretKey c)
  /\ requestTimestamps c = []
  /\ (forall env' : gmap string string,
        exists message,
          constructor (delete "STRIPE_SECRET_KEY" env') = Thrown (Error message))
  /\ (forall (log : list Z) (now : Z) (late : list nat) (tr : list Event)
             (net : list Exchange) (method path : string)
             (params : option Params),
        let w := mkWorld (mkClient (secretKey c) log) now late tr in
        let w' := (request net method path params w).2 in
        secretKey (this w') = secretKey c
        /\ exists evs,
             trace w' = tr ++ evs
             /\ Forall (fun call =>
                          ("Authorization", "Bearer " +:+ secretKey c)
                            ∈ init_headers call.2)
                       (fetches evs))
  /\ (forall (w : World) (gaps : list nat),
        secretKey (this (calls gaps w).2) = secretKey (this w)).
Proof.
  intros Hc. unfold constructor in Hc.
  split; [|split; [|split; [|split]]].
  - destruct (env !! "STRIPE_SECRET_KEY") as [key|]; [|discriminate].
    destruct (Js.truthy key); [|discriminate]. now injection Hc as <-.
  - destruct (env !! "STRIPE_SECRET_KEY") as [key|]; [|discriminate].
    destruct (Js.truthy key); [|discriminate]. now injection Hc as <-.
  - intros env'. unfold constructor. rewrite lookup_delete_eq. eauto.
  - intros log now late tr net method path params w w'.
    destruct (request_any net method path params w) as (Hk & evs & Htr & Hf).
    split; [exact Hk|]. exists evs. split; [exact Htr|].
    eapply Forall_impl; [exact Hf|]. simpl. intros call ->.
    apply build_authorization.
  - intros w gaps. apply calls_key.
Qed.

Lemma credential_is_fixed_witness :
  ({["STRIPE_SECRET_KEY" := "sk_test_123"]} : gmap string string)
    !! "STRIPE_SECRET_KEY" = Some "sk_test_123"
  /\ fetches (trace (request [] "DELETE" "/customers/cus_1" None
                       (fresh "sk_test_123" 0 [])).2)
     = [("https://api.stripe.com/v1/customers/cus_1",
         mkInit "DELETE" [("Authorization", "Bearer sk_test_123")] None)].
Proof.
  destruct (credential_is_fixed {["STRIPE_SECRET_KEY" := "sk_test_123"]}
              (mkClient "sk_test_123" [])) as (Hkey & _).
  - vm_compute. reflexivity.
  - split; [exact Hkey|]. vm_compute. reflexivity.
Defined.

(** ** Concurrent callers *)

(** A caller alone goes through the two halves of [throttle] exactly as
    the sequential [throttle] does when its timer fires on time. *)
Lemma lone_caller_agrees (w : World) (d : Z) :
  timers w = [] ->
  wait_for (clock w) (prune (clock w) (requestTimestamps (this w))) = Some d ->
  pushes (trace (Concurrent.world
            (Concurrent.run
               [Concurrent.Run 0; Concurrent.Tick (Z.to_nat (timer_ms (Js.of_Z d)));
                Concurrent.Run 0]
               (Concurrent.mkPool w [Concurrent.Ready]))))
  = pushes (trace (throttled w))
  /\ requestTimestamps (this (Concurrent.world
            (Concurrent.run
               [Concurrent.Run 0; Concurrent.Tick (Z.to_nat (timer_ms (Js.of_Z d)));
                Concurrent.Run 0]
               (Concurrent.mkPool w [Concurrent.Ready]))))
     = requestTimestamps (this (throttled w)).
Proof.
  intros Htimers Hwait. unfold throttled. rewrite Hwait, Htimers.
  unfold Concurrent.run. simpl fold_left.
  unfold Concurrent.step. simpl. rewrite throttle_enter_run, Hwait. simpl.
  pose proof (timer_ms_pos (Js.of_Z d)) as Hpos.
  destruct (Z.leb_spec (clock w + timer_ms (Js.of_Z d))
              (clock w + Z.of_nat (Z.to_nat (timer_ms (Js.of_Z d)))))
    as [_|Hlt]; [|lia].
  simpl. rewrite Z2Nat.id by lia.
  rewrite !pushes_app. simpl. rewrite Z.add_0_r, app_nil_r.
  split; reflexivity.
Qed.

(** C8 does not hold of the code: the callers that find the window full
    all compute the same wait, wake together and are all let through.
    Here 26 calls are pushed at time 1050, one more than the maximum for
    the window that starts there. *)
Theorem concurrent_burst_exceeds_limit :
  let after := Concurrent.run burst crowd in
  Forall (fun c => c = Concurrent.Passed) (Concurrent.callers after)
  /\ pushes (trace (Concurrent.world after))
     = replicate 25 0 ++ replicate 26 1050
  /\ pushes_in_window 1050 (trace (Concurrent.world after)) = 26%nat
  /\ (maxRequests < pushes_in_window 1050 (trace (Concurrent.world after)))%nat.
Proof.
  vm_compute. split; [repeat constructor|].
  split; [reflexivity|]. split; [reflexivity|]. lia.
Qed.

(** * Further properties of the client and of the tool layer *)

(** ** The rate of a sequential caller *)

Lemma filter_length_le {A} (P Q : A -> Prop) `{!forall x, Decision (P x)}
  `{!forall x, Decision (Q x)} (l : list A) :
  (forall x, P x -> Q x) ->
  (length (filter P l) <= length (filter Q l))%nat.
Proof.
  intros HPQ. induction l as [|x l IH]; [reflexivity|].
  rewrite !filter_cons. destruct (decide (P x)) as [HP|HP].
  - rewrite decide_True by auto. simpl. lia.
  - destruct (decide (Q x)); simpl; lia.
Qed.

(** Paced pushes never put more than [maxRequests] in a window. *)
Lemma paced_window (h : list Z) (t : Z) :
  paced h ->
  (length (filter (fun ts => (t <= ts < t + windowMs)%Z) h) <= maxRequests)%nat.
Proof.
  induction 1 as [|h x Hp IH Hx]; [simpl; unfold maxRequests; lia|].
  rewrite filter_app, length_app, filter_cons, filter_nil.
  destruct (decide (t <= x < t + windowMs)) as [Hin|Hout]; simpl; [|lia].
  assert (Hle : (length (filter (fun ts => (t <= ts < t + windowMs)%Z) h)
                 <= length (prune x h))%nat).
  { unfold prune. apply filter_length_le. intros y Hy. lia. }
  lia.
Qed.

Lemma healthy_fresh (key : string) (now : Z) (late : list nat) :
  healthy (fresh key now late).
Proof.
  split; simpl.
  - constructor.
  - left. simpl. unfold maxRequests. lia.
  - intros t Ht. reflexivity.
  - constructor.
  - constructor.
Qed.

(** Steps that leave the client alone, push nothing and only let time
    pass keep the world healthy. *)
Lemma healthy_quiet (w w' : World) :
  healthy w -> this w' = this w -> clock w <= clock w' ->
  pushes (trace w') = pushes (trace w) ->
  timeouts InThrottle (trace w') = timeouts InThrottle (trace w) ->
  healthy w'.
Proof.
  intros [Hp Hb Ha Hpast Hw] Hthis Hclk Hpush Htm. split.
  - now rewrite Hpush.
  - destruct Hb as [Hle|(oldest & rest & Heq & Hlen & Hold)].
    + left. now rewrite Hthis.
    + right. exists oldest, rest. rewrite Hthis. repeat split; auto. lia.
  - intros now Hnow. rewrite Hthis, Hpush. apply Ha. lia.
  - rewrite Hthis. eapply Forall_impl; [exact Hpast|]. simpl. intros t Ht. lia.
  - now rewrite Htm.
Qed.

Lemma wait_for_some (now : Z) (kept : list Z) (d : Z) :
  wait_for now kept = Some d ->
  exists oldest rest,
    kept = oldest :: rest /\ (maxRequests <= length kept)%nat
    /\ d = waitMs now oldest /\ 0 < d.
Proof.
  unfold wait_for. destruct (Nat.leb_spec maxRequests (length kept)); [|discriminate].
  destruct kept as [|oldest rest]; [discriminate|].
  destruct (Z.ltb_spec 0 (waitMs now oldest)); [|discriminate].
  intros [= <-]. exists oldest, rest. auto.
Qed.

Lemma agrees_push (log h : list Z) (now0 : Z) (tail : list Z) :
  (forall now, now0 <= now -> prune now log = prune now h) ->
  forall now, now0 <= now ->
    prune now (prune now0 log ++ tail) = prune now (h ++ tail).
Proof.
  intros Hag now Hnow. unfold prune at 1 3. rewrite !filter_app.
  fold (prune now (prune now0 log)). fold (prune now h).
  rewrite prune_prune by exact Hnow. now rewrite Hag.
Qed.

Lemma healthy_throttled (w : World) : healthy w -> healthy (throttled w).
Proof.
  intros Hh. pose proof Hh as [Hp Hb Ha Hpast Hw].
  pose proof (bounded_throttled w Hpast Hb) as Hb'.
  pose proof (bounded_prune w (clock w) Hb (Z.le_refl _)) as Hk.
  assert (Hkept_past : Forall (fun t => t <= clock w)
                         (prune (clock w) (requestTimestamps (this w)))).
  { apply Forall_forall. intros t Ht. apply elem_of_prune in Ht as [Ht _].
    rewrite Forall_forall in Hpast. now apply Hpast. }
  unfold throttled in *.
  destruct (wait_for (clock w) (prune (clock w) (requestTimestamps (this w))))
    as [d|] eqn:Hwait.
  - apply wait_for_some in Hwait as (oldest & rest & Heq & Hfull & Hd & Hpos).
    assert (Hold : oldest <= clock w /\ clock w - oldest < windowMs).
    { assert (Hin : oldest ∈ prune (clock w) (requestTimestamps (this w)))
        by (rewrite Heq; left).
      split; [|now apply elem_of_prune in Hin].
      rewrite Forall_forall in Hkept_past. now apply Hkept_past. }
    unfold waitMs, windowMs in *.
    rewrite (timer_ms_within d) in * by (unfold TIMEOUT_MAX; lia).
    set (woke := clock w + d + Z.of_nat (hd 0%nat (timers w))) in *.
    assert (Hwoke : clock w <= woke /\ oldest + 1000 <= woke)
      by (unfold woke; lia).
    split; cbn [trace this clock requestTimestamps timers secretKey].
    + rewrite pushes_app. simpl. apply paced_snoc; [exact Hp|].
      rewrite <- Ha by lia.
      rewrite <- (prune_prune (clock w) woke) by lia.
      rewrite Heq. unfold prune at 1. rewrite filter_cons_False
        by (unfold windowMs; lia).
      pose proof (length_filter (fun t => woke - t < 1000) rest) as Hlen.
      rewrite Heq in Hk. simpl in Hk. unfold windowMs. lia.
    + exact Hb'.
    + unfold agrees. cbn [trace this clock requestTimestamps].
      intros now Hnow. rewrite pushes_app.
      apply (agrees_push _ _ (clock w)); [exact Ha|lia].
    + apply Forall_app. split; [|apply Forall_singleton; lia].
      eapply Forall_impl; [exact Hkept_past|]. simpl. intros t Ht. lia.
    + rewrite timeouts_app. apply Forall_app. split; [exact Hw|].
      simpl. apply Forall_singleton. unfold wait_in_range.
      destruct (Z.ltb_spec 50 d), (Z.leb_spec d 1050); simpl;
        try reflexivity; lia.
  - apply wait_for_none_iff in Hwait.
    split; cbn [trace this clock requestTimestamps timers secretKey].
    + rewrite pushes_app. simpl. apply paced_snoc; [exact Hp|].
      rewrite <- Ha by lia. exact Hwait.
    + exact Hb'.
    + unfold agrees. cbn [trace this clock requestTimestamps].
      intros now Hnow. rewrite pushes_app.
      apply (agrees_push _ _ (clock w)); [exact Ha|lia].
    + apply Forall_app. split; [exact Hkept_past|apply Forall_singleton; lia].
    + rewrite timeouts_app. simpl. rewrite app_nil_r. exact Hw.
Qed.

Lemma healthy_fetched (w : World) (call : string * RequestInit) (lat : nat) :
  healthy w -> healthy (fetched w call (Z.of_nat lat)).
Proof.
  intros Hh. apply (healthy_quiet w); auto; unfold fetched; simpl; try lia.
  - rewrite pushes_app. simpl. apply app_nil_r.
  - rewrite timeouts_app. simpl. apply app_nil_r.
Qed.

Lemma healthy_retry_sleep (w : World) (delay : Js.jsnum) :
  healthy w -> healthy (sleep InRetry delay w).2.
Proof.
  intros Hh. apply (healthy_quiet w); auto; unfold sleep; simpl.
  - pose proof (timer_ms_nonneg delay). lia.
  - rewrite pushes_app. simpl. apply app_nil_r.
  - rewrite timeouts_app. simpl. apply app_nil_r.
Qed.

Lemma healthy_read_body (w : World) (r : Response) :
  healthy w -> healthy (read_body w r).
Proof.
  intros Hh. apply (healthy_quiet w); auto; unfold read_body, reads_of; simpl.
  - lia.
  - rewrite pushes_app.
    destruct (negb (res_ok r)); [|destruct (res_status r =? 204)];
      simpl; apply app_nil_r.
  - rewrite timeouts_app.
    destruct (negb (res_ok r)); [|destruct (res_status r =? 204)];
      simpl; apply app_nil_r.
Qed.

Lemma healthy_elapse (w : World) (g : nat) :
  healthy w -> healthy (elapse (Z.of_nat g) w).2.
Proof.
  intros Hh. apply (healthy_quiet w); auto; simpl; lia.
Qed.

(** Whatever the network does, a request leaves the world healthy. *)
Lemma healthy_request (net : list Exchange) (method path : string)
  (params : option Params) : forall w : World,
  healthy w -> healthy (request net method path params w).2.
Proof.
  induction net as [|x net IH]; intros w Hh.
  - rewrite request_nil. simpl.
    apply (healthy_fetched _ _ 0%nat), healthy_throttled, Hh.
  - rewrite request_cons. cbv zeta.
    pose proof (healthy_fetched _
                  (build (secretKey (this w)) method path params) (latency x)
                  (healthy_throttled w Hh)) as Hf.
    destruct (reply x) as [r|message]; [|exact Hf].
    destruct (res_status r =? 429).
    + apply IH. now apply healthy_retry_sleep.
    + now apply healthy_read_body.
Qed.

Lemma healthy_session (ops : list Op) : forall w : World,
  healthy w -> healthy (session ops w).
Proof.
  induction ops as [|o ops IH]; intros w Hh; [exact Hh|].
  simpl. apply IH. unfold run_op, perform.
  apply healthy_request. now apply healthy_elapse.
Qed.

(** X1: a caller that awaits each operation before starting the next never
    gets more than 25 calls through [throttle] in any window of one
    second, whatever the operations, the idle times, the lateness of the
    timers and the behaviour of the network, 429 retries included. *)
Theorem sequential_rate_limit (key : string) (start : Z) (late : list nat)
  (ops : list Op) (t : Z) :
  (pushes_in_window t (trace (session ops (fresh key start late)))
   <= maxRequests)%nat.
Proof.
  unfold pushes_in_window. apply paced_window.
  apply healthy_paced, healthy_session, healthy_fresh.
Qed.

(** X2: whenever [throttle] suspends such a caller, the delay it hands to
    the timer is an integer number of milliseconds above 50 and at most
    1050, so the guard on a positive wait never skips a suspension and no
    call is held longer than a window plus the margin by the throttle
    itself. *)
Theorem throttle_wait_is_bounded (key : string) (start : Z) (late : list nat)
  (ops : list Op) (d : Js.jsnum) :
  d ∈ timeouts InThrottle (trace (session ops (fresh key start late))) ->
  exists z, d = Js.Dec z 0 /\ 50 < z <= 1050.
Proof.
  intros Hd.
  pose proof (healthy_waits _ (healthy_session ops _ (healthy_fresh key start late)))
    as Hw.
  rewrite Forall_forall in Hw. specialize (Hw d Hd).
  unfold wait_in_range in Hw. destruct d as [| | |z e]; try discriminate.
  apply andb_true_iff in Hw as [Hw Hle]. apply andb_true_iff in Hw as [He Hlt].
  apply Z.eqb_eq in He. apply Z.ltb_lt in Hlt. apply Z.leb_le in Hle.
  subst e. exists z. auto.
Qed.

Lemma throttle_wait_is_bounded_witness :
  Js.Dec 1050 0
    ∈ timeouts InThrottle
        (trace (session
                  (replicate 26 (mkOp 0 [mkExchange 0 (Responded found_customer)]
                                   (getCustomer "cus_1")))
                  (fresh "sk_test" 0 [])))
  /\ exists z, Js.Dec 1050 0 = Js.Dec z 0 /\ 50 < z <= 1050.
Proof.
  assert (Hin : Js.Dec 1050 0
    ∈ timeouts InThrottle
        (trace (session
                  (replicate 26 (mkOp 0 [mkExchange 0 (Responded found_customer)]
                                   (getCustomer "cus_1")))
                  (fresh "sk_test" 0 [])))).
  { vm_compute. left. }
  split; [exact Hin|].
  exact (throttle_wait_is_bounded "sk_test" 0 [] _ _ Hin).
Defined.

(** X11: along such a session the stored log never holds more than 26
    timestamps, however many calls are made, and none of them lies in the
    future. *)
Theorem log_stays_small (key : string) (start : Z) (late : list nat)
  (ops : list Op) :
  let w := session ops (fresh key start late) in
  (length (requestTimestamps (this w)) <= 26)%nat
  /\ Forall (fun t => t <= clock w) (requestTimestamps (this w)).
Proof.
  intros w.
  pose proof (healthy_session ops _ (healthy_fresh key start late)) as Hh.
  fold w in Hh. split; [|exact (healthy_past _ Hh)].
  destruct (healthy_bounded _ Hh) as [Hle|(oldest & rest & Heq & Hlen & _)].
  - unfold maxRequests in Hle. lia.
  - rewrite Heq. simpl. rewrite Hlen. unfold maxRequests. lia.
Qed.

(** ** Transport failures and the bodies of 429 responses *)

(** The body readers [request] goes through on the exchange that ends it. *)
Lemma request_reads (rejs : list Exchange) :
  forall (final : Exchange) (rest : list Exchange) (method path : string)
         (params : option Params) (w : World),
  Forall is_rejection rejs -> rejected final = false ->
  exists evs,
    trace (request (rejs ++ final :: rest) method path params w).2
    = trace w ++ evs
    /\ body_reads evs = match reply final with
                        | Responded r => reads_of r
                        | Failed _ => []
                        end.
Proof.
  induction rejs as [|x rejs IH]; intros final rest method path params w Hrej Hfin.
  - simpl app. rewrite request_cons. cbv zeta.
    destruct (throttled_trace w) as (evs & Htr & _ & _ & _ & Hb).
    destruct (reply final) as [r|message] eqn:Hreply.
    + destruct (Z.eqb_spec (res_status r) 429) as [H429|_].
      { unfold rejected in Hfin. rewrite Hreply in Hfin.
        apply Z.eqb_neq in Hfin. contradiction. }
      eexists. unfold read_body, fetched. simpl. rewrite Htr, <- !app_assoc.
      split; [reflexivity|].
      rewrite !body_reads_app, Hb. simpl. unfold reads_of.
      destruct (negb (res_ok r)); [|destruct (res_status r =? 204)]; reflexivity.
    + eexists. unfold fetched. simpl. rewrite Htr, <- !app_assoc.
      split; [reflexivity|]. rewrite !body_reads_app, Hb. reflexivity.
  - apply Forall_cons in Hrej as [Hx Hrej].
    apply is_rejection_inv in Hx as (r & Hreply & H429).
    simpl app. rewrite request_cons. cbv zeta. rewrite Hreply, H429.
    change (429 =? 429) with true. cbv iota.
    destruct (throttled_trace w) as (evs & Htr & _ & _ & _ & Hb).
    match goal with |- context [request _ _ _ _ ?w1] =>
      destruct (IH final rest method path params w1 Hrej Hfin)
        as (evs' & Htr' & Hb')
    end.
    eexists. rewrite Htr'. unfold sleep, fetched. simpl.
    rewrite Htr, <- !app_assoc. split; [reflexivity|].
    rewrite !body_reads_app, Hb, Hb'. reflexivity.
Qed.

(** X3: when [fetch] rejects, after any number of 429 responses, [request]
    throws that same error at once: one call per 429 and one for the
    failed attempt, one retry timer per 429 and none after the failure,
    and no response body read at all, those of the 429 responses
    included. *)
Theorem transport_failure_propagates (rejs : list Exchange) (lat : nat)
  (message : string) (rest : list Exchange) (method path : string)
  (params : option Params) (w : World) :
  Forall is_rejection rejs ->
  exists w' evs,
    request (rejs ++ mkExchange lat (Failed message) :: rest) method path params w
    = (Thrown (TypeError message), w')
    /\ trace w' = trace w ++ evs
    /\ length (fetches evs) = S (length rejs)
    /\ length (pushes evs) = S (length rejs)
    /\ length (timeouts InRetry evs) = length rejs
    /\ body_reads evs = [].
Proof.
  intros Hrej.
  destruct (request_through_rejections rejs (mkExchange lat (Failed message))
              rest method path params w Hrej eq_refl)
    as (w' & evs & Hrun & Htr & Hf & Hp & Ht & _).
  destruct (request_reads rejs (mkExchange lat (Failed message))
              rest method path params w Hrej eq_refl)
    as (evs' & Htr' & Hb).
  rewrite Hrun in Htr'. simpl in Htr'. rewrite Htr in Htr'.
  apply app_inv_head in Htr'. subst evs'.
  exists w', evs. split; [exact Hrun|]. split; [exact Htr|].
  rewrite Hf, Hp, Ht, length_replicate, length_fmap. auto.
Qed.

Lemma transport_failure_propagates_witness :
  exists w' evs,
    request [mkExchange 5 (Responded busy_three);
             mkExchange 5 (Failed "fetch failed")]
            "GET" "/balance" None (fresh "sk_test" 0 [])
    = (Thrown (TypeError "fetch failed"), w')
    /\ trace w' = trace (fresh "sk_test" 0 []) ++ evs
    /\ length (fetches evs) = 2%nat
    /\ length (pushes evs) = 2%nat
    /\ length (timeouts InRetry evs) = 1%nat
    /\ body_reads evs = [].
Proof.
  apply (transport_failure_propagates [mkExchange 5 (Responded busy_three)]
           5 "fetch failed" [] "GET" "/balance" None (fresh "sk_test" 0 [])).
  repeat constructor.
Defined.

(** ** Serialised parameters can be read back *)

Lemma decode_encode_byte (c : ascii) (rest : string) :
  Urldecode.decode (Url.encode_byte c +:+ rest)
  = String c (Urldecode.decode rest).
Proof.
  destruct c as [b0 b1 b2 b3 b4 b5 b6 b7].
  destruct b0, b1, b2, b3, b4, b5, b6, b7; reflexivity.
Qed.

Lemma decode_encode (s : string) : Urldecode.decode (Url.encode s) = s.
Proof.
  induction s as [|c s IH]; [reflexivity|].
  change (Url.encode (String c s)) with (Url.encode_byte c +:+ Url.encode s).
  now rewrite decode_encode_byte, IH.
Qed.

(** X4: decoding an encoded name or value gives it back, for every byte
    string, and an encoded string holds only unreserved characters, [+]
    and [%]: nothing is lost or confused by the percent-encoding. *)
Theorem urlencoded_round_trip (s : string) :
  Urldecode.decode (Url.encode s) = s
  /\ Forall (fun c => url_safe c = true) (list_ascii_of_string (Url.encode s)).
Proof.
  split; [apply decode_encode|apply encode_safe].
Qed.

Lemma encode_inj (a b : string) : Url.encode a = Url.encode b -> a = b.
Proof.
  intros H. rewrite <- (decode_encode a), <- (decode_encode b).
  now rewrite H.
Qed.

Lemma chars_inj (a b : string) :
  list_ascii_of_string a = list_ascii_of_string b -> a = b.
Proof.
  intros H. rewrite <- (string_of_list_ascii_of_string a),
    <- (string_of_list_ascii_of_string b). now rewrite H.
Qed.

(** A separator that occurs in neither prefix splits a list in one way. *)
Lemma split_unique (sep : ascii) (a : list ascii) :
  forall a' b b' : list ascii,
  sep ∉ a -> sep ∉ a' -> a ++ sep :: b = a' ++ sep :: b' ->
  a = a' /\ b = b'.
Proof.
  induction a as [|x a IH]; intros [|x' a'] b b' Ha Ha' Heq; simpl in Heq.
  - injection Heq as ->. auto.
  - injection Heq as -> _. exfalso. apply Ha'. left.
  - injection Heq as -> _. exfalso. apply Ha. left.
  - injection Heq as -> Heq.
    destruct (IH a' b b') as [-> ->]; auto.
    + intros Hin. apply Ha. now right.
    + intros Hin. apply Ha'. now right.
Qed.

Lemma encode_no_separator (s : string) (sep : ascii) :
  url_safe sep = false -> sep ∉ list_ascii_of_string (Url.encode s).
Proof.
  intros Hsep Hin. pose proof (encode_safe s) as Hs.
  rewrite Forall_forall in Hs. specialize (Hs sep Hin). congruence.
Qed.

Lemma chars_pair (kv : string * string) :
  list_ascii_of_string (Url.encode_pair kv)
  = list_ascii_of_string (Url.encode kv.1)
      ++ "="%char :: list_ascii_of_string (Url.encode kv.2).
Proof.
  unfold Url.encode_pair. rewrite !list_ascii_append. reflexivity.
Qed.

Lemma chars_toString_cons (kv kv' : string * string)
  (rest : list (string * string)) :
  list_ascii_of_string (Url.toString (kv :: kv' :: rest))
  = list_ascii_of_string (Url.encode_pair kv)
      ++ "&"%char :: list_ascii_of_string (Url.toString (kv' :: rest)).
Proof.
  change (Url.toString (kv :: kv' :: rest))
    with (Url.encode_pair kv +:+ "&" +:+ Url.toString (kv' :: rest)).
  rewrite !list_ascii_append. reflexivity.
Qed.

Lemma pair_no_ampersand (kv : string * string) :
  "&"%char ∉ list_ascii_of_string (Url.encode_pair kv).
Proof.
  rewrite chars_pair. intros Hin. apply elem_of_app in Hin as [Hin|Hin].
  - now apply (encode_no_separator kv.1 "&"%char).
  - apply elem_of_cons in Hin as [Hin|Hin]; [discriminate|].
    now apply (encode_no_separator kv.2 "&"%char).
Qed.

Lemma encode_pair_inj (kv kv' : string * string) :
  Url.encode_pair kv = Url.encode_pair kv' -> kv = kv'.
Proof.
  intros H. apply (f_equal list_ascii_of_string) in H.
  rewrite !chars_pair in H.
  apply split_unique in H as [Hk Hv];
    try (now apply encode_no_separator).
  apply chars_inj, encode_inj in Hk. apply chars_inj, encode_inj in Hv.
  destruct kv, kv'. simpl in *. congruence.
Qed.

Lemma toString_cons_not_empty (kv : string * string)
  (t : list (string * string)) : Url.toString (kv :: t) <> "".
Proof.
  intros H. apply (f_equal list_ascii_of_string) in H.
  destruct t as [|kv' t].
  - change (Url.toString [kv]) with (Url.encode_pair kv) in H.
    rewrite chars_pair in H.
    destruct (list_ascii_of_string (Url.encode kv.1)); discriminate.
  - rewrite chars_toString_cons, chars_pair in H.
    destruct (list_ascii_of_string (Url.encode kv.1)); discriminate.
Qed.

Lemma toString_inj (l1 : list (string * string)) :
  forall l2, Url.toString l1 = Url.toString l2 -> l1 = l2.
Proof.
  induction l1 as [|kv t1 IH]; intros [|kv' t2] H.
  - reflexivity.
  - symmetry in H. now apply toString_cons_not_empty in H.
  - now apply toString_cons_not_empty in H.
  - destruct t1 as [|kv1 t1], t2 as [|kv2 t2].
    + change (Url.encode_pair kv = Url.encode_pair kv') in H.
      apply encode_pair_inj in H. now subst.
    + exfalso. apply (pair_no_ampersand kv).
      apply (f_equal list_ascii_of_string) in H.
      rewrite chars_toString_cons in H.
      change (Url.toString [kv]) with (Url.encode_pair kv) in H.
      rewrite H. apply elem_of_app. right. left.
    + exfalso. apply (pair_no_ampersand kv').
      apply (f_equal list_ascii_of_string) in H.
      rewrite chars_toString_cons in H.
      change (Url.toString [kv']) with (Url.encode_pair kv') in H.
      rewrite <- H. apply elem_of_app. right. left.
    + apply (f_equal list_ascii_of_string) in H.
      rewrite !chars_toString_cons in H.
      apply split_unique in H as [Hp Ht]; try apply pair_no_ampersand.
      apply chars_inj, encode_pair_inj in Hp. apply chars_inj in Ht.
      apply IH in Ht. congruence.
Qed.

(** X5: two lists of pairs that serialise to the same query string or body
    are the same list: no name or value, whatever characters it holds, can
    pass for a separator or add a parameter of its own. *)
Theorem serialised_pairs_are_unambiguous (l1 l2 : list (string * string)) :
  Url.toString l1 = Url.toString l2 -> l1 = l2.
Proof.
  apply toString_inj.
Qed.

Lemma serialised_pairs_are_unambiguous_witness :
  Url.toString [("email", "a&b=c")] = "email=a%26b%3Dc"
  /\ [("email", "a&b=c")] = [("email", "a&b=c")].
Proof.
  split; [reflexivity|].
  apply (serialised_pairs_are_unambiguous [("email", "a&b=c")]
           [("email", "a&b=c")]).
  reflexivity.
Defined.

(** ** The tool layer *)

Lemma constructor_returns (env : gmap string string) (c : StripeClient) :
  constructor env = Returned c ->
  env !! "STRIPE_SECRET_KEY" = Some (secretKey c)
  /\ c = mkClient (secretKey c) [] /\ secretKey c <> "".
Proof.
  unfold constructor. destruct (env !! "STRIPE_SECRET_KEY") as [key|];
    [|discriminate].
  destruct key as [|x key]; [discriminate|].
  intros [= <-]. simpl. repeat split. discriminate.
Qed.

Lemma world_eta (w : World) :
  mkWorld (this w) (clock w) (timers w) (trace w) = w.
Proof.
  destruct w. reflexivity.
Qed.


Lemma tool_call_state (syntax_message : string)
  (render : ToolCall -> JValue -> Completion string)
  (env : gmap string string) (net : list Exchange) (t : ToolCall) (s : Server) :
  (tool_call syntax_message render env net t s).2
  = match client_slot s with
    | Some c => served net t c s
    | None =>
        match constructor env with
        | Returned c => served net t c s
        | _ => s
        end
    end.
Proof.
  unfold tool_call, getClient, served, world_of.
  destruct (client_slot s) as [c|].
  - destruct (perform _ _ _) as [[v|e|] w']; simpl; [|reflexivity..].
    destruct (render t v); reflexivity.
  - destruct (constructor env) as [c|e|]; [|reflexivity..]. simpl.
    destruct (perform _ _ _) as [[v|e|] w']; simpl; [|reflexivity..].
    destruct (render t v); reflexivity.
Qed.

Lemma served_ok (net : list Exchange) (t : ToolCall) (c : StripeClient)
  (s : Server) :
  healthy (world_of c s) -> all_bearer (secretKey c) (server_trace s) ->
  server_ok (served net t c s)
  /\ exists c', client_slot (served net t c s) = Some c'
                /\ secretKey c' = secretKey c.
Proof.
  intros Hh Hb. unfold served, perform.
  destruct (request_any net (verb (dispatch t)) (path (dispatch t))
              (parameters (dispatch t)) (world_of c s))
    as (Hkey & evs & Htr & Hf).
  pose proof (healthy_request net (verb (dispatch t)) (path (dispatch t))
                (parameters (dispatch t)) (world_of c s) Hh) as Hh'.
  set (w' := (request net (verb (dispatch t)) (path (dispatch t))
                (parameters (dispatch t)) (world_of c s)).2) in *.
  simpl in Hkey, Htr, Hf. split.
  - unfold server_ok. simpl. unfold world_of. simpl. rewrite world_eta.
    split; [exact Hh'|].
    unfold all_bearer. rewrite Hkey, Htr, fetches_app.
    apply Forall_app. split; [exact Hb|].
    eapply Forall_impl; [exact Hf|]. simpl. intros call ->.
    apply build_authorization.
  - exists (this w'). split; [reflexivity|exact Hkey].
Qed.

Lemma server_ok_idle (g : nat) (s : Server) : server_ok s -> server_ok (idle g s).
Proof.
  unfold server_ok, idle. simpl. destruct (client_slot s) as [c|]; [|auto].
  intros [Hh Hb]. split; [|exact Hb].
  exact (healthy_elapse (world_of c s) g Hh).
Qed.

Lemma server_ok_tool_call (syntax_message : string)
  (render : ToolCall -> JValue -> Completion string)
  (env : gmap string string) (net : list Exchange) (t : ToolCall) (s : Server) :
  server_ok s -> server_ok (tool_call syntax_message render env net t s).2.
Proof.
  intros Hok. rewrite tool_call_state. unfold server_ok in Hok.
  destruct (client_slot s) as [c|] eqn:Hslot.
  - destruct Hok as [Hh Hb]. now apply served_ok.
  - destruct (constructor env) as [c|e|] eqn:Hc;
      try (unfold server_ok; rewrite Hslot; exact Hok).
    apply constructor_returns in Hc as (_ & Hc & _).
    apply served_ok.
    + unfold world_of. rewrite Hok, Hc. apply healthy_fresh.
    + unfold all_bearer. rewrite Hok. constructor.
Qed.

Lemma server_ok_serve (syntax_message : string)
  (render : ToolCall -> JValue -> Completion string) (calls : list Incoming) :
  forall s, server_ok s -> server_ok (serve syntax_message render calls s).
Proof.
  induction calls as [|i calls IH]; intros s Hok; [exact Hok|].
  simpl. apply IH. unfold serve_one.
  now apply server_ok_tool_call, server_ok_idle.
Qed.

(** X6: all tools share the one client of the server, so the limit holds
    for the server as a whole: however the tool calls follow one another,
    whatever their kind, the environment and the network, no window of one
    second sees more than 25 calls let through. *)
Theorem server_rate_limit (syntax_message : string)
  (render : ToolCall -> JValue -> Completion string) (now : Z)
  (late : list nat) (calls : list Incoming) (t : Z) :
  (pushes_in_window t
     (server_trace (serve syntax_message render calls (new_server now late)))
   <= maxRequests)%nat.
Proof.
  pose proof (server_ok_serve syntax_message render calls (new_server now late)
                eq_refl) as Hok.
  unfold server_ok in Hok.
  destruct (client_slot _) as [c|].
  - destruct Hok as [Hh _]. unfold pushes_in_window.
    apply paced_window. exact (healthy_paced _ Hh).
  - rewrite Hok. unfold pushes_in_window, maxRequests. simpl. lia.
Qed.

Lemma served_slot (net : list Exchange) (t : ToolCall) (c : StripeClient)
  (s : Server) :
  exists c', client_slot (served net t c s) = Some c'
             /\ secretKey c' = secretKey c.
Proof.
  unfold served, perform. eexists. split; [reflexivity|].
  exact (proj1 (request_any net _ _ _ (world_of c s))).
Qed.

Lemma serve_cons (syntax_message : string)
  (render : ToolCall -> JValue -> Completion string) (i : Incoming)
  (calls : list Incoming) (s : Server) :
  serve syntax_message render (i :: calls) s
  = serve syntax_message render calls
      (tool_call syntax_message render (in_env i) (in_net i) (in_call i)
         (idle (in_gap i) s)).2.
Proof.
  reflexivity.
Qed.

Lemma serve_keeps_key (syntax_message : string)
  (render : ToolCall -> JValue -> Completion string) (calls : list Incoming) :
  forall (s : Server) (c : StripeClient),
  client_slot s = Some c ->
  exists c', client_slot (serve syntax_message render calls s) = Some c'
             /\ secretKey c' = secretKey c.
Proof.
  induction calls as [|i calls IH]; intros s c Hslot; [eauto|].
  rewrite serve_cons, tool_call_state.
  change (client_slot (idle (in_gap i) s)) with (client_slot s). rewrite Hslot.
  destruct (served_slot (in_net i) (in_call i) c (idle (in_gap i) s))
    as (c1 & Hslot1 & Hkey1).
  destruct (IH _ c1 Hslot1) as (c' & Hslot' & Hkey').
  exists c'. split; [exact Hslot'|congruence].
Qed.

Lemma serve_key_origin (syntax_message : string)
  (render : ToolCall -> JValue -> Completion string) (calls : list Incoming) :
  forall s : Server,
  client_slot s = None ->
  match client_slot (serve syntax_message render calls s) with
  | Some c =>
      exists i, i ∈ calls /\ in_env i !! "STRIPE_SECRET_KEY" = Some (secretKey c)
  | None => Forall (fun i => forall c, constructor (in_env i) <> Returned c) calls
  end.
Proof.
  induction calls as [|i calls IH]; intros s Hslot.
  - simpl. rewrite Hslot. constructor.
  - rewrite serve_cons, tool_call_state.
    change (client_slot (idle (in_gap i) s)) with (client_slot s). rewrite Hslot.
    destruct (constructor (in_env i)) as [c|e|] eqn:Hc.
    + apply constructor_returns in Hc as (Henv & _).
      destruct (served_slot (in_net i) (in_call i) c (idle (in_gap i) s))
        as (c1 & Hslot1 & Hkey1).
      destruct (serve_keeps_key syntax_message render calls _ c1 Hslot1)
        as (c' & Hslot' & Hkey').
      rewrite Hslot'. exists i. split; [left|congruence].
    + specialize (IH (idle (in_gap i) s) Hslot).
      destruct (client_slot (serve _ _ calls _)) as [c|].
      * destruct IH as (j & Hj & Hkey). exists j. split; [now right|exact Hkey].
      * constructor; [congruence|exact IH].
    + specialize (IH (idle (in_gap i) s) Hslot).
      destruct (client_slot (serve _ _ calls _)) as [c|].
      * destruct IH as (j & Hj & Hkey). exists j. split; [now right|exact Hkey].
      * constructor; [congruence|exact IH].
Qed.

(** X7: the server constructs its client at the first tool call that finds
    a usable key and keeps it: until then nothing at all is sent; from
    then on every call sent, by whatever tool, carries the bearer header
    of the key read at that call, and later changes of the environment
    change nothing. *)
Theorem server_key_is_fixed (syntax_message : string)
  (render : ToolCall -> JValue -> Completion string) (now : Z)
  (late : list nat) (calls later : list Incoming) :
  let s := serve syntax_message render calls (new_server now late) in
  match client_slot s with
  | Some c =>
      all_bearer (secretKey c) (server_trace s)
      /\ (exists i, i ∈ calls
                    /\ in_env i !! "STRIPE_SECRET_KEY" = Some (secretKey c))
      /\ exists c', client_slot (serve syntax_message render later s) = Some c'
                    /\ secretKey c' = secretKey c
  | None =>
      server_trace s = []
      /\ Forall (fun i => forall c, constructor (in_env i) <> Returned c) calls
  end.
Proof.
  intros s.
  pose proof (server_ok_serve syntax_message render calls (new_server now late)
                eq_refl) as Hok.
  pose proof (serve_key_origin syntax_message render calls (new_server now late)
                eq_refl) as Horigin.
  fold s in Hok, Horigin. unfold server_ok in Hok.
  destruct (client_slot s) as [c|] eqn:Hslot.
  - destruct Hok as [_ Hb]. split; [exact Hb|]. split; [exact Horigin|].
    now apply serve_keeps_key.
  - auto.
Qed.

(** X8: a handler reports every failure instead of throwing.  The error
    flag is set exactly when something threw: the constructor for want of
    a key, in which case nothing else has happened and no client is kept,
    the client method, or the rendering of its result; the text is then
    [Error: ] followed by the message of what was thrown.  Without the
    flag the text is the rendering of what the client method returned. *)
Theorem tool_failures_are_reported (syntax_message : string)
  (render : ToolCall -> JValue -> Completion string)
  (env : gmap string string) (net : list Exchange) (t : ToolCall)
  (s : Server) (res : ToolResult) (s' : Server) :
  tool_call syntax_message render env net t s = (Some res, s') ->
  (result_isError res = true ->
   exists e,
     res = mkResult ("Error: " +:+ message_of syntax_message e) true
     /\ ((client_slot s = None /\ constructor env = Thrown e /\ s' = s)
         \/ exists c,
              (getClient env s).1 = Returned c
              /\ ((perform net (dispatch t) (world_of c s)).1 = Thrown e
                  \/ exists v,
                       (perform net (dispatch t) (world_of c s)).1 = Returned v
                       /\ render t v = Thrown e)))
  /\ (result_isError res = false ->
      exists c v,
        (getClient env s).1 = Returned c
        /\ (perform net (dispatch t) (world_of c s)).1 = Returned v
        /\ render t v = Returned (result_text res)).
Proof.
  unfold tool_call, getClient, world_of.
  destruct (client_slot s) as [c|] eqn:Hslot.
  - simpl. destruct (perform _ _ _) as [[v|e|] w'] eqn:Hrun; simpl.
    + destruct (render t v) as [text|e|] eqn:Hrender; intros [= <- <-]; simpl.
      * split; [discriminate|]. intros _. exists c, v. rewrite Hrun. auto.
      * split; [|discriminate]. intros _. exists e. split; [reflexivity|].
        right. exists c. split; [reflexivity|]. right. exists v. rewrite Hrun. auto.
    + intros [= <- <-]. split; [|discriminate]. intros _.
      exists e. split; [reflexivity|]. right. exists c. rewrite Hrun. auto.
    + discriminate.
  - destruct (constructor env) as [c|e|] eqn:Hc; simpl.
    + destruct (perform _ _ _) as [[v|e|] w'] eqn:Hrun; simpl.
      * destruct (render t v) as [text|e|] eqn:Hrender; intros [= <- <-]; simpl.
        -- split; [discriminate|]. intros _. exists c, v. rewrite Hrun. auto.
        -- split; [|discriminate]. intros _. exists e. split; [reflexivity|].
           right. exists c. split; [reflexivity|]. right. exists v. rewrite Hrun. auto.
      * intros [= <- <-]. split; [|discriminate]. intros _.
        exists e. split; [reflexivity|]. right. exists c. rewrite Hrun. auto.
      * discriminate.
    + intros [= <- <-]. split; [|discriminate]. intros _.
      exists e. split; [reflexivity|]. left. auto.
    + discriminate.
Qed.

Lemma tool_failures_are_reported_witness :
  tool_call "" (fun _ _ => Returned "{}") ∅
            [mkExchange 3 (Responded not_found)] stripe_get_balance
            (new_server 0 [])
  = (Some (mkResult
             ("Error: STRIPE_SECRET_KEY environment variable is not set. "
              +:+ "Get your secret key from https://dashboard.stripe.com/apikeys")
             true),
     new_server 0 [])
  /\ exists e,
       mkResult
         ("Error: STRIPE_SECRET_KEY environment variable is not set. "
          +:+ "Get your secret key from https://dashboard.stripe.com/apikeys")
         true
       = mkResult ("Error: " +:+ message_of "" e) true.
Proof.
  assert (Hrun :
    tool_call "" (fun _ _ => Returned "{}") ∅
              [mkExchange 3 (Responded not_found)] stripe_get_balance
              (new_server 0 [])
    = (Some (mkResult
               ("Error: STRIPE_SECRET_KEY environment variable is not set. "
                +:+ "Get your secret key from https://dashboard.stripe.com/apikeys")
               true),
       new_server 0 [])) by reflexivity.
  split; [exact Hrun|].
  destruct (tool_failures_are_reported _ _ _ _ _ _ _ _ Hrun) as [Herr _].
  destruct (Herr eq_refl) as (e & He & _). exists e. exact He.
Defined.

(** ** The sandbox entry point *)

(** X9: the sandbox server fills in [sandbox-token] only when the variable
    is missing.  Its client can therefore be constructed in every
    environment but one that sets the variable to the empty string, which
    the default does not replace and the constructor rejects. *)
Theorem sandbox_client (env : gmap string string) :
  ((exists c, constructor (sandbox_env env) = Returned c)
   <-> env !! "STRIPE_SECRET_KEY" <> Some "")
  /\ constructor (sandbox_env (delete "STRIPE_SECRET_KEY" env))
     = Returned (mkClient "sandbox-token" [])
  /\ (forall x key,
        constructor (sandbox_env (<["STRIPE_SECRET_KEY" := String x key]> env))
        = Returned (mkClient (String x key) []))
  /\ (exists message,
        constructor (sandbox_env (<["STRIPE_SECRET_KEY" := ""]> env))
        = Thrown (Error message)).
Proof.
  split; [|split; [|split]].
  - unfold sandbox_env, constructor.
    destruct (env !! "STRIPE_SECRET_KEY") as [key|] eqn:Hkey.
    + rewrite Hkey. destruct key as [|x key]; simpl.
      * split; [intros (c & Hc); discriminate|congruence].
      * split; [discriminate|eauto].
    + rewrite lookup_insert_eq. simpl. split; [discriminate|eauto].
  - unfold sandbox_env, constructor.
    rewrite lookup_delete_eq, lookup_insert_eq. reflexivity.
  - intros x key. unfold sandbox_env, constructor.
    rewrite !lookup_insert_eq. reflexivity.
  - unfold sandbox_env, constructor. rewrite !lookup_insert_eq. simpl. eauto.
Qed.

(** ** The shape of every tool's request *)

Lemma keys_sublist (params : Params) :
  sublist ((fun kv => kv.1) <$> defined_entries params)
          ((fun kv => kv.1) <$> params).
Proof.
  induction params as [|[k [v|]] params IH]; simpl.
  - constructor.
  - now constructor.
  - now constructor.
Qed.

Lemma keys_of_NoDup (p : PendingRequest) :
  NoDup ((fun kv => kv.1) <$> default [] (parameters p)) -> NoDup (keys_of p).
Proof.
  unfold keys_of, sent_pairs. destruct (parameters p) as [params|]; simpl.
  - intros H. eapply sublist_NoDup; [exact H|apply keys_sublist].
  - intros _. constructor.
Qed.

Lemma build_with_params (key method path : string) (params : Params) :
  build key method path (Some params)
  = if is_read_verb method
    then (match defined_entries params with
          | [] => BASE_URL +:+ path
          | _ :: _ => BASE_URL +:+ path +:+ "?"
                        +:+ Url.toString (defined_entries params)
          end,
          mkInit method [("Authorization", "Bearer " +:+ key)] None)
    else (BASE_URL +:+ path,
          mkInit method
            [("Authorization", "Bearer " +:+ key);
             ("Content-Type", "application/x-www-form-urlencoded")]
            (Some (Url.toString (defined_entries params)))).
Proof.
  unfold build. destruct (is_read_verb method); [|reflexivity].
  destruct (defined_entries params); reflexivity.
Qed.

(** X10: whatever the tool and its arguments, the request it sends is of
    one of two shapes.  The creating and updating tools POST to their path
    with the parameters as body and the form Content-Type; all the others
    GET or DELETE with no body, the bearer header alone, and the
    parameters, when any is left, as query string.  No parameter name is
    sent twice. *)
Theorem tool_requests_are_well_formed (key : string) (t : ToolCall) :
  let p := dispatch t in
  let call := wire key p in
  let auth := ("Authorization", "Bearer " +:+ key) in
  NoDup (keys_of p)
  /\ init_method call.2 = verb p
  /\ ((verb p = "POST"
       /\ call.1 = BASE_URL +:+ path p
       /\ init_body call.2 = Some (Url.toString (sent_pairs p))
       /\ init_headers call.2
          = [auth; ("Content-Type", "application/x-www-form-urlencoded")])
      \/ ((verb p = "GET" \/ verb p = "DELETE")
          /\ init_body call.2 = None
          /\ init_headers call.2 = [auth]
          /\ call.1 = match sent_pairs p with
                      | [] => BASE_URL +:+ path p
                      | _ :: _ => BASE_URL +:+ path p +:+ "?"
                                    +:+ Url.toString (sent_pairs p)
                      end)).
Proof.
  intros p call auth. split; [|split].
  - apply keys_of_NoDup. subst p.
    destruct t;
      try (match goal with
           | |- context [stripe_create_price _ _ _ ?r] =>
               destruct r as [[|? ?]|]
           end);
      distinct_names.
  - subst call p. unfold wire.
    destruct t; reflexivity.
  - subst call p. unfold wire, sent_pairs.
    destruct t;
      try (match goal with
           | |- context [stripe_create_price _ _ _ ?r] =>
               destruct r as [[|? ?]|]
           end);
      simpl parameters; simpl verb; simpl path;
      try rewrite build_with_params;
      try (left; repeat split; reflexivity);
      try (right; split; [auto|]; repeat split; reflexivity).
Qed.
